(** * Initiative tracker: a shallow embedding of [src/index.js]

    The [Tracker] class keeps one lowdb document [{round, turn, characters}]
    and reads and writes it through lodash chains.  The document is modelled
    as a record, every method as a computation in a small state-and-exception
    monad (a JavaScript [throw] leaves the document as it is at that point),
    and the lodash functions the methods call ([find], [findIndex], [remove],
    [orderBy]) as list functions written after lodash 4.17. *)

From Stdlib Require Import Ascii.
From stdpp Require Import base strings numbers pretty sorting list.

Local Open Scope string_scope.
Local Open Scope Z_scope.

(** ** Data model *)

(** One entry of the [characters] array, as [addCharacter] builds it:
    [{ userID, name, initiative, dexterity }]. *)
Record Character : Type := mkCharacter {
  userID : string;
  name : string;
  initiative : Z;
  dexterity : Z
}.

(** The lowdb document; [this.db.defaults({...})] gives [defaults]. *)
Record Document : Type := mkDocument {
  round : Z;
  turn : Z;
  characters : list Character
}.

Definition defaults : Document :=
  {| round := 0; turn := 0; characters := [] |}.

(** [round] and [turn] are JavaScript numbers that hold integers, modelled
    by [Z].  The class only ever adds 1 to them or takes 1 from them, and
    on a double that is the exact sum as long as the operand is a safe
    integer ([Number.isSafeInteger]: at most 2^53 - 1 in absolute value);
    from 2^53 on the double sum is rounded and the integer sum below no
    longer describes it.  A statement about [round + 1], [turn + 1] or
    [turn - 1] therefore asks [safeInteger] of the operand wherever the
    size of the roster does not bound it already. *)
Definition safeInteger (z : Z) : Prop :=
  -9007199254740991 ≤ z ≤ 9007199254740991.

(** The two strings the class throws. *)
Inductive exception : Type :=
  | CharacterDoesNotExist   (* throw "Character does not exist!" *)
  | CharacterAlreadyExists. (* throw "Character already exists!" *)

Definition message (e : exception) : string :=
  match e with
  | CharacterDoesNotExist => "Character does not exist!"
  | CharacterAlreadyExists => "Character already exists!"
  end.

(** ** The lodash functions used by the class *)

Module Lodash.

(** [_.matches({ name: n })]: the one-key object shorthand, a strict
    comparison of the property. *)
Definition matchesName (n : string) (object : Character) : bool :=
  String.eqb (name object) n.

Definition matchesUserID (u : string) (object : Character) : bool :=
  String.eqb (userID object) u.

(** [_.matches(source)] for a whole character as the source: every own
    property of [source] is compared strictly with that of [object]. *)
Definition matches (source object : Character) : bool :=
  String.eqb (userID object) (userID source)
  && String.eqb (name object) (name source)
  && Z.eqb (initiative object) (initiative source)
  && Z.eqb (dexterity object) (dexterity source).

(** [_.find]: the first element the predicate accepts, else [undefined]. *)
Fixpoint find {A : Type} (predicate : A → bool) (array : list A) : option A :=
  match array with
  | [] => None
  | x :: rest => if predicate x then Some x else find predicate rest
  end.

(** [baseFindIndex]: the first accepted index counted from [fromIndex],
    else [-1]. *)
Fixpoint baseFindIndex {A : Type} (array : list A) (predicate : A → bool)
    (fromIndex : Z) : Z :=
  match array with
  | [] => -1
  | x :: rest =>
      if predicate x then fromIndex
      else baseFindIndex rest predicate (fromIndex + 1)
  end.

Definition findIndex {A : Type} (predicate : A → bool) (array : list A) : Z :=
  baseFindIndex array predicate 0.

(** [_.remove] pulls out of the array EVERY element the predicate accepts;
    this is the array that is left. *)
Fixpoint remove {A : Type} (predicate : A → bool) (array : list A) : list A :=
  match array with
  | [] => []
  | x :: rest =>
      if predicate x then remove predicate rest
      else x :: remove predicate rest
  end.

(** What an iteratee of [orderBy] returns for an element: [_.matches]
    gives a boolean, [identity] the element itself. *)
Inductive criterion : Type :=
  | CBool (b : bool)
  | CObject (o : Character).

Definition identity (value : Character) : criterion := CObject value.

(** [baseIteratee] on an object that is not an array: [baseMatches]. *)
Definition baseIteratee (source : Character) : Character → criterion :=
  λ object, CBool (matches source object).

(** [compareAscending]: [1] when [value > other], [-1] when
    [value < other], else [0].  On booleans [true > false]; two plain
    objects, or an object and a boolean, are neither [<] nor [>]. *)
Definition compareAscending (value other : criterion) : Z :=
  match value, other with
  | CBool true, CBool false => 1
  | CBool false, CBool true => -1
  | _, _ => 0
  end.

(** The array [baseOrderBy] sorts. *)
Record entry : Type := mkEntry {
  criteria : list criterion;
  index : Z;
  value : Character
}.

(** The [while (++index < length)] loop of [compareMultiple]; [orders] is
    the part of the orders array from the current index on, so that
    [index >= ordersLength] reads "[orders] is empty". [None] when the loop
    runs to its end. *)
Fixpoint compareCriteria (objCriteria othCriteria : list criterion)
    (orders : list string) : option Z :=
  match objCriteria, othCriteria with
  | v :: objRest, o :: othRest =>
      let result := compareAscending v o in
      if result =? 0 then compareCriteria objRest othRest (tail orders)
      else match orders with
           | [] => Some result
           | order :: _ =>
               Some (result * (if String.eqb order "desc" then -1 else 1))
           end
  | _, _ => None
  end.

Definition compareMultiple (object other : entry) (orders : list string) : Z :=
  match compareCriteria (criteria object) (criteria other) orders with
  | Some result => result
  | None => index object - index other
  end.

(** [Array.prototype.sort(comparer)] as a stable insertion sort.  The
    comparer of [baseOrderBy] falls back on the entries' indices, so it
    never answers 0 for two entries of one array and the sorted array does
    not depend on the algorithm of the engine. *)
Fixpoint insertSorted {A : Type} (comparer : A → A → Z) (x : A)
    (sorted : list A) : list A :=
  match sorted with
  | [] => [x]
  | y :: rest =>
      if comparer x y <=? 0 then x :: y :: rest
      else y :: insertSorted comparer x rest
  end.

Fixpoint arraySort {A : Type} (comparer : A → A → Z) (array : list A) : list A :=
  match array with
  | [] => []
  | x :: rest => insertSorted comparer x (arraySort comparer rest)
  end.

(** [baseSortBy]: sort the entries, then keep each entry's [value]. *)
Definition baseSortBy (array : list entry) (comparer : entry → entry → Z)
    : list Character :=
  map value (arraySort comparer array).

(** The [baseMap] of [baseOrderBy]: one entry per element, numbered by
    [++index]. *)
Fixpoint entriesFrom (iteratees : list (Character → criterion))
    (collection : list Character) (index : Z) : list entry :=
  match collection with
  | [] => []
  | value :: rest =>
      {| criteria := map (λ iteratee, iteratee value) iteratees;
         index := index;
         value := value |}
      :: entriesFrom iteratees rest (index + 1)
  end.

Definition baseOrderBy (collection iteratees : list Character)
    (orders : list string) : list Character :=
  let iteratees :=
    match iteratees with
    | [] => [identity]
    | _ => map baseIteratee iteratees
    end in
  baseSortBy (entriesFrom iteratees collection 0)
             (λ object other, compareMultiple object other orders).

(** [_.orderBy(collection, iteratees, orders, guard)].  The fourth
    parameter exists so that [orderBy] can serve as an iteratee of
    [_.reduce]; when it is truthy (an array always is) the orders are
    dropped: [orders = guard ? undefined : orders]. *)
Definition orderBy (collection iteratees : list Character)
    (orders guard : option (list string)) : list Character :=
  let orders := match guard with Some _ => None | None => orders end in
  let orders := match orders with Some o => o | None => [] end in
  baseOrderBy collection iteratees orders.

End Lodash.

(** ** A state-and-exception monad for the methods *)

Inductive completion (A : Type) : Type :=
  | Normal (a : A)
  | Throw (e : exception).
Arguments Normal {A} a.
Arguments Throw {A} e.

Definition M (A : Type) : Type := Document → completion A * Document.

#[global] Instance M_ret : MRet M := λ A a db, (Normal a, db).

#[global] Instance M_bind : MBind M := λ A B f m db,
  match m db with
  | (Normal a, db') => f a db'
  | (Throw e, db') => (Throw e, db')
  end.

Definition throw {A : Type} (e : exception) : M A := λ db, (Throw e, db).

(** [this.db.get(key).value()] *)
Definition get {A : Type} (key : Document → A) : M A := λ db, (Normal (key db), db).

(** [this.db.update('round', f).write()] and its two siblings. *)
Definition update_round (f : Z → Z) : M unit :=
  λ db, (Normal (), {| round := f (round db); turn := turn db;
                       characters := characters db |}).

Definition update_turn (f : Z → Z) : M unit :=
  λ db, (Normal (), {| round := round db; turn := f (turn db);
                       characters := characters db |}).

Definition update_characters (f : list Character → list Character) : M unit :=
  λ db, (Normal (), {| round := round db; turn := turn db;
                       characters := f (characters db) |}).

(** ** The class *)

Module Tracker.

Definition allCharacters : M (list Character) := get characters.

Definition characterCount : M Z :=
  cs ← get characters; mret (Z.of_nat (length cs)).

Definition currentCharacter : M (option Character) :=
  t ← get turn; cs ← get characters;
  mret (if t <? 0 then None else cs !! Z.to_nat t).

Definition turnIndex (index : Z) : M unit := update_turn (λ _, index).

Definition roundIndex (index : Z) : M unit := update_round (λ _, index).

Definition characterExists (name : string) : M bool :=
  cs ← get characters;
  mret (match Lodash.find (Lodash.matchesName name) cs with
        | Some _ => true
        | None => false
        end).

Definition getCharacterOwnerID (targetName : string) : M string :=
  found ← characterExists targetName;
  if negb found then throw CharacterDoesNotExist
  else
    cs ← get characters;
    match Lodash.find (Lodash.matchesName targetName) cs with
    | Some c => mret (userID c)
    | None => throw CharacterDoesNotExist
    end.

Definition getCharacterIndex (name : string) : M Z :=
  found ← characterExists name;
  if negb found then throw CharacterDoesNotExist
  else
    cs ← get characters;
    mret (Lodash.findIndex (Lodash.matchesName name) cs).

Definition addCharacter (userID name : string) (initiative dexterity : Z)
    : M unit :=
  found ← characterExists name;
  if (found : bool) then throw CharacterAlreadyExists
  else
    update_characters
      (λ cs, (cs ++ [mkCharacter userID name initiative dexterity])%list).

(** [find({ name }).assign({ name: newname, initiative, dexterity })]
    overwrites three properties of the first match where it stands. *)
Fixpoint assignFirst (name newname : string) (initiative dexterity : Z)
    (cs : list Character) : list Character :=
  match cs with
  | [] => []
  | c :: rest =>
      if Lodash.matchesName name c
      then mkCharacter (userID c) newname initiative dexterity :: rest
      else c :: assignFirst name newname initiative dexterity rest
  end.

Definition editCharacter (name newname : string) (initiative dexterity : Z)
    : M unit :=
  found ← characterExists name;
  if negb found then throw CharacterDoesNotExist
  else update_characters (assignFirst name newname initiative dexterity).

(** [turn - 1] and [round + 1] are the sums of the code on safe integers
    (see [safeInteger]). *)
Definition removeCharacter (name : string) : M unit :=
  found ← characterExists name;
  if negb found then throw CharacterDoesNotExist
  else
    foundIndex ← getCharacterIndex name;
    t ← get turn;
    if foundIndex <? t then
      update_characters (Lodash.remove (Lodash.matchesName name));;
      update_turn (λ turn, turn - 1)
    else
      t ← get turn;
      if foundIndex =? t then
        size ← characterCount;
        (if foundIndex =? size - 1 then
           update_round (λ round, round + 1);;
           update_turn (λ _, 0)
         else mret ());;
        update_characters (Lodash.remove (Lodash.matchesName name))
      else
        update_characters (Lodash.remove (Lodash.matchesName name)).

Definition userHasCharacter (userID : string) : M bool :=
  cs ← get characters;
  mret (match Lodash.find (Lodash.matchesUserID userID) cs with
        | Some _ => true
        | None => false
        end).

(** [this.db.get("characters").orderBy(this.db.get("characters").value(),
    ['initiative', 'dexterity'], ['desc', 'desc'])]: a chained call passes
    the wrapped array as the first argument, so the three written
    arguments arrive as [iteratees], [orders] and [guard]. *)
Definition sortTracker : M unit :=
  cs ← get characters;
  update_characters
    (λ _, Lodash.orderBy cs cs
            (Some ["initiative"; "dexterity"]) (Some ["desc"; "desc"])).

(** [turn + 1] and [round + 1] are the sums of the code on safe integers
    (see [safeInteger]). *)
Definition nextTurn : M unit :=
  t ← get turn;
  n ← characterCount;
  if t <? n - 1 then update_turn (λ turn, turn + 1)
  else
    update_turn (λ _, 0);;
    update_round (λ round, round + 1);;
    sortTracker.

Definition startCombat : M unit :=
  update_round (λ _, 1);;
  update_turn (λ _, 0).

Definition reset (wipe : bool) : M unit :=
  (if wipe then update_characters (λ _, []) else mret ());;
  update_round (λ _, 0);;
  update_turn (λ _, 0).

(** The template literal [`${round + 1}/${this.characterCount}`]; for a safe
    integer [round] (see [safeInteger]) the sum is exact and both numbers
    print in decimal. *)
Definition progress : M string :=
  r ← get round;
  n ← characterCount;
  mret (pretty (r + 1) +:+ "/" +:+ pretty n).

(** [listCharacters] writes one [console.log] line per character; the
    computation returns the lines in the order they are written. *)
Definition listCharacters : M (list string) :=
  cs ← get characters;
  mret (map name cs).

(** The getters [round] and [turn]. *)
Definition round : M Z := get round.

Definition turn : M Z := get turn.

End Tracker.

(** ** Sessions: sequences of calls *)

(** One call of a mutating method by the controlling application. *)
Inductive call : Type :=
  | SetTurnIndex (index : Z)
  | SetRoundIndex (index : Z)
  | AddCharacter (userID name : string) (initiative dexterity : Z)
  | EditCharacter (name newname : string) (initiative dexterity : Z)
  | RemoveCharacter (name : string)
  | NextTurn
  | StartCombat
  | SortTracker
  | Reset (wipe : bool).

Definition perform (c : call) : M unit :=
  match c with
  | SetTurnIndex index => Tracker.turnIndex index
  | SetRoundIndex index => Tracker.roundIndex index
  | AddCharacter userID name initiative dexterity =>
      Tracker.addCharacter userID name initiative dexterity
  | EditCharacter name newname initiative dexterity =>
      Tracker.editCharacter name newname initiative dexterity
  | RemoveCharacter name => Tracker.removeCharacter name
  | NextTurn => Tracker.nextTurn
  | StartCombat => Tracker.startCombat
  | SortTracker => Tracker.sortTracker
  | Reset wipe => Tracker.reset wipe
  end.

(** The two setters that overwrite [turn] and [round] unchecked. *)
Definition escapeHatch (c : call) : bool :=
  match c with
  | SetTurnIndex _ | SetRoundIndex _ => true
  | _ => false
  end.

(** The document after a sequence of calls; a call that throws is caught by
    the caller and the session goes on from the document as the throw left
    it. *)
Fixpoint run (calls : list call) (db : Document) : Document :=
  match calls with
  | [] => db
  | c :: rest => run rest (snd (perform c db))
  end.

Definition hasName (n : string) (db : Document) : bool :=
  existsb (Lodash.matchesName n) (characters db).

(** An [editCharacter] call that gives an existing character the name of
    another character of the roster. *)
Definition renamesOnto (c : call) (db : Document) : bool :=
  match c with
  | EditCharacter name newname _ _ =>
      hasName name db && negb (String.eqb name newname) && hasName newname db
  | _ => false
  end.

(** No call of the session is an escape hatch or renames a character onto
    another one. *)
Fixpoint plainSession (calls : list call) (db : Document) : bool :=
  match calls with
  | [] => true
  | c :: rest =>
      negb (escapeHatch c) && negb (renamesOnto c db)
      && plainSession rest (snd (perform c db))
  end.

(** ** The turn order the documentation asks for *)

(** [a] may stand before [b]: higher initiative, or the same initiative and
    at least the dexterity. *)
Definition precedes (a b : Character) : bool :=
  (initiative b <? initiative a)
  || ((initiative a =? initiative b) && (dexterity b <=? dexterity a)).

(** Ordered by initiative descending, then dexterity descending. *)
Fixpoint orderedDesc (cs : list Character) : bool :=
  match cs with
  | [] => true
  | c :: rest => forallb (precedes c) rest && orderedDesc rest
  end.

Definition sameKeys (a b : Character) : bool :=
  (initiative a =? initiative b) && (dexterity a =? dexterity b).

Definition characterCount (db : Document) : Z := Z.of_nat (length (characters db)).

(** The calls that can change who is in the roster. *)
Definition membershipCall (c : call) : bool :=
  match c with
  | AddCharacter _ _ _ _ | RemoveCharacter _ | Reset _ => true
  | _ => false
  end.

(** The calls that overwrite [round] with a constant. *)
Definition overwritesRound (c : call) : bool :=
  match c with
  | SetRoundIndex _ | StartCombat | Reset _ => true
  | _ => false
  end.

(** [k] is the first position of [cs] at which a character is named [n]. *)
Definition firstNamed (n : string) (cs : list Character) (k : nat)
    (c : Character) : Prop :=
  cs !! k = Some c
  ∧ name c = n
  ∧ ∀ j cj, (j < k)%nat → cs !! j = Some cj → name cj ≠ n.

(** The state the class is meant to keep: unique names, and a turn pointer
    inside the roster (at 0 when the roster is empty). *)
Definition consistent (db : Document) : Prop :=
  NoDup (name <$> characters db)
  ∧ 0 ≤ turn db < Z.max 1 (characterCount db).

(** * Properties *)

(** ** Running the monad *)

Ltac run_step :=
  cbv [mbind mret M_bind M_ret get throw update_round update_turn
       update_characters].

Lemma hasName_true (n : string) (db : Document) :
  hasName n db = true ↔ ∃ c, c ∈ characters db ∧ name c = n.
Proof.
  unfold hasName. rewrite existsb_exists. split.
  - intros (c & Hin & Hc). exists c. split; [by apply list_elem_of_In|].
    by apply String.eqb_eq.
  - intros (c & Hin & Hc). exists c. split; [by apply list_elem_of_In|].
    by apply String.eqb_eq.
Qed.

Lemma hasName_false (n : string) (db : Document) :
  hasName n db = false ↔ ∀ c, c ∈ characters db → name c ≠ n.
Proof.
  split.
  - intros Hf c Hin Hc.
    assert (hasName n db = true) by (apply hasName_true; eauto). congruence.
  - intros Hall. destruct (hasName n db) eqn:E; [|done].
    apply hasName_true in E as (c & Hin & Hc). by destruct (Hall c Hin).
Qed.

Lemma find_existsb {A : Type} (p : A → bool) (l : list A) :
  match Lodash.find p l with Some _ => true | None => false end = existsb p l.
Proof. induction l as [|x l IH]; cbn; [done|]. by destruct (p x). Qed.

Lemma characterExists_run (n : string) (db : Document) :
  Tracker.characterExists n db = (Normal (hasName n db), db).
Proof.
  unfold Tracker.characterExists. run_step.
  by rewrite find_existsb.
Qed.

Lemma getCharacterIndex_run (n : string) (db : Document) :
  hasName n db = true →
  Tracker.getCharacterIndex n db
  = (Normal (Lodash.findIndex (Lodash.matchesName n) (characters db)), db).
Proof.
  intros H. unfold Tracker.getCharacterIndex, mbind, M_bind.
  rewrite characterExists_run, H. reflexivity.
Qed.

Lemma characterCount_run (db : Document) :
  Tracker.characterCount db = (Normal (characterCount db), db).
Proof. reflexivity. Qed.

Lemma removeCharacter_absent (n : string) (db : Document) :
  hasName n db = false →
  Tracker.removeCharacter n db = (Throw CharacterDoesNotExist, db).
Proof.
  intros H. unfold Tracker.removeCharacter, mbind, M_bind.
  by rewrite characterExists_run, H.
Qed.

(** The whole effect of a successful [removeCharacter] in one equation. *)
Lemma removeCharacter_run (n : string) (db : Document) :
  hasName n db = true →
  let i := Lodash.findIndex (Lodash.matchesName n) (characters db) in
  let wraps := (i =? turn db) && (i =? characterCount db - 1) in
  Tracker.removeCharacter n db
  = (Normal (),
     {| round := if wraps then round db + 1 else round db;
        turn := if i <? turn db then turn db - 1
                else if wraps then 0 else turn db;
        characters := Lodash.remove (Lodash.matchesName n) (characters db) |}).
Proof.
  intros H i wraps. subst wraps.
  unfold Tracker.removeCharacter, mbind, M_bind.
  rewrite characterExists_run, H. cbn [negb].
  rewrite getCharacterIndex_run by done. fold i.
  unfold get at 1. cbn [fst snd].
  destruct (i <? turn db) eqn:Hlt.
  - run_step. cbn. destruct (i =? turn db) eqn:Heq; [lia|]. done.
  - unfold get at 1.
    destruct (i =? turn db) eqn:Heq; cbn [andb].
    + rewrite characterCount_run.
      destruct (i =? characterCount db - 1) eqn:Hlast; run_step; cbn; done.
    + run_step. done.
Qed.

Lemma editCharacter_absent (n n' : string) (i d : Z) (db : Document) :
  hasName n db = false →
  Tracker.editCharacter n n' i d db = (Throw CharacterDoesNotExist, db).
Proof.
  intros H. unfold Tracker.editCharacter, mbind, M_bind.
  by rewrite characterExists_run, H.
Qed.

Lemma editCharacter_run (n n' : string) (i d : Z) (db : Document) :
  hasName n db = true →
  Tracker.editCharacter n n' i d db
  = (Normal (),
     {| round := round db; turn := turn db;
        characters := Tracker.assignFirst n n' i d (characters db) |}).
Proof.
  intros H. unfold Tracker.editCharacter, mbind, M_bind.
  by rewrite characterExists_run, H.
Qed.

Lemma addCharacter_run (u n : string) (i d : Z) (db : Document) :
  Tracker.addCharacter u n i d db
  = if hasName n db then (Throw CharacterAlreadyExists, db)
    else (Normal (),
          {| round := round db; turn := turn db;
             characters := (characters db ++ [mkCharacter u n i d])%list |}).
Proof.
  unfold Tracker.addCharacter, mbind, M_bind.
  rewrite characterExists_run. by destruct (hasName n db).
Qed.

(** [assignFirst] is an update at the position of the first match. *)
Lemma assignFirst_insert (n n' : string) (i d : Z) (cs : list Character)
    (k : nat) (c : Character) :
  cs !! k = Some c →
  name c = n →
  (∀ j c', (j < k)%nat → cs !! j = Some c' → name c' ≠ n) →
  Tracker.assignFirst n n' i d cs = <[k := mkCharacter (userID c) n' i d]> cs.
Proof.
  revert k. induction cs as [|x cs IH]; intros k Hk Hc Hfirst; [done|].
  cbn [Tracker.assignFirst]. unfold Lodash.matchesName at 1.
  destruct k as [|k]; cbn in Hk.
  - injection Hk as ->. apply String.eqb_eq in Hc. by rewrite Hc.
  - assert (name x ≠ n) as Hx by (apply (Hfirst 0%nat); [lia|done]).
    apply String.eqb_neq in Hx. rewrite Hx. cbn. f_equal.
    apply IH; [done|done|]. intros j c' Hj Hc'.
    apply (Hfirst (S j)); [lia|done].
Qed.

(** ** Adding, editing and failing calls *)

(** C5: [addCharacter(ownerID, n, initiative, dexterity)] throws
    "Character already exists!" exactly when a character named [n] is in the
    roster, and throws nothing else; when it succeeds the new character is
    appended after the existing ones, which keep their order, [turn] and
    [round] are unchanged, and [characterExists(n)] is then true. *)
Theorem addCharacter_appends_or_rejects (db : Document) (u n : string) (i d : Z) :
  let outcome := Tracker.addCharacter u n i d db in
  (outcome.1 = Throw CharacterAlreadyExists
   ↔ ∃ c, c ∈ characters db ∧ name c = n)
  ∧ (outcome.1 = Normal () ∨ outcome = (Throw CharacterAlreadyExists, db))
  ∧ (outcome.1 = Normal () →
     round outcome.2 = round db
     ∧ turn outcome.2 = turn db
     ∧ characters outcome.2 = (characters db ++ [mkCharacter u n i d])%list
     ∧ Tracker.characterExists n outcome.2 = (Normal true, outcome.2)).
Proof.
  intros outcome. subst outcome. rewrite addCharacter_run.
  rewrite <- hasName_true.
  destruct (hasName n db) eqn:E; cbn [fst snd].
  - repeat split; try done. by right.
  - repeat split; try done; try by left.
    rewrite characterExists_run. f_equal. f_equal.
    apply hasName_true. exists (mkCharacter u n i d). split; [|done].
    cbn. apply elem_of_app. right. apply list_elem_of_singleton. done.
Qed.

Lemma addCharacter_appends_or_rejects_witness :
  characters (Tracker.addCharacter "u1" "Alice" 17 12 defaults).2
  = [mkCharacter "u1" "Alice" 17 12].
Proof.
  destruct (addCharacter_appends_or_rejects defaults "u1" "Alice" 17 12)
    as (_ & _ & Hok).
  apply Hok. reflexivity.
Defined.

Lemma nextTurn_never_throws (db : Document) :
  ∃ db', Tracker.nextTurn db = (Normal (), db').
Proof.
  unfold Tracker.nextTurn, mbind, M_bind. unfold get at 1.
  rewrite characterCount_run.
  destruct (turn db <? characterCount db - 1); eexists; reflexivity.
Qed.

(** C6: [removeCharacter(n)] with no character named [n] throws
    "Character does not exist!" and leaves roster, turn and round as they
    were; and whichever mutator throws, the document after the throw is the
    document before the call. *)
Theorem failed_call_leaves_document (db : Document) :
  (∀ n, (∀ c, c ∈ characters db → name c ≠ n) →
        Tracker.removeCharacter n db = (Throw CharacterDoesNotExist, db))
  ∧ (∀ c e db', perform c db = (Throw e, db') → db' = db).
Proof.
  split.
  - intros n Habsent. apply removeCharacter_absent. by apply hasName_false.
  - intros c e db' Hthrow. destruct c; cbn [perform] in Hthrow.
    + discriminate Hthrow.
    + discriminate Hthrow.
    + rewrite addCharacter_run in Hthrow.
      destruct (hasName name0 db); congruence.
    + destruct (hasName name0 db) eqn:E.
      * rewrite editCharacter_run in Hthrow by done. discriminate Hthrow.
      * rewrite editCharacter_absent in Hthrow by done. congruence.
    + destruct (hasName name0 db) eqn:E.
      * rewrite removeCharacter_run in Hthrow by done. discriminate Hthrow.
      * rewrite removeCharacter_absent in Hthrow by done. congruence.
    + destruct (nextTurn_never_throws db) as [db'' H].
      rewrite H in Hthrow. discriminate Hthrow.
    + discriminate Hthrow.
    + discriminate Hthrow.
    + destruct wipe; discriminate Hthrow.
Qed.

Lemma failed_call_leaves_document_witness :
  Tracker.removeCharacter "Zed" (mkDocument 2 1
    [mkCharacter "u1" "Alice" 17 12; mkCharacter "u2" "Bob" 9 14])
  = (Throw CharacterDoesNotExist,
     mkDocument 2 1
       [mkCharacter "u1" "Alice" 17 12; mkCharacter "u2" "Bob" 9 14])
  ∧ mkDocument 2 1 [mkCharacter "u1" "Alice" 17 12]
    = mkDocument 2 1 [mkCharacter "u1" "Alice" 17 12].
Proof.
  split.
  - apply failed_call_leaves_document.
    intros c Hc. repeat (apply elem_of_cons in Hc as [-> | Hc]); [done|done|].
    by apply elem_of_nil in Hc.
  - symmetry.
    apply (proj2 (failed_call_leaves_document
                    (mkDocument 2 1 [mkCharacter "u1" "Alice" 17 12]))
                 (AddCharacter "u9" "Alice" 3 3) CharacterAlreadyExists).
    reflexivity.
Defined.

(** C7: [editCharacter(name, newName, initiative, dexterity)] throws
    "Character does not exist!" and changes nothing when no character is
    named [name]; otherwise the first character named [name], at index [k],
    gets the new name, initiative and dexterity and stays at index [k] with
    its owner, every other character, [turn] and [round] are unchanged; and
    [newName] is never checked, so the call also succeeds when another
    character already bears [newName]. *)
Theorem editCharacter_in_place (db : Document) (n n' : string) (i d : Z) :
  ((∀ c, c ∈ characters db → name c ≠ n) →
   Tracker.editCharacter n n' i d db = (Throw CharacterDoesNotExist, db))
  ∧ (∀ (k : nat) (c : Character),
       characters db !! k = Some c →
       name c = n →
       (∀ j c', (j < k)%nat → characters db !! j = Some c' → name c' ≠ n) →
       Tracker.editCharacter n n' i d db
       = (Normal (),
          {| round := round db; turn := turn db;
             characters :=
               <[k := mkCharacter (userID c) n' i d]> (characters db) |})).
Proof.
  split.
  - intros Habsent. apply editCharacter_absent. by apply hasName_false.
  - intros k c Hk Hc Hfirst.
    rewrite editCharacter_run.
    + by rewrite (assignFirst_insert n n' i d _ k c).
    + apply hasName_true. exists c. split; [|done].
      by apply list_elem_of_lookup_2 with k.
Qed.

(** Renaming Bob to "Alice" next to an Alice goes through. *)
Lemma editCharacter_in_place_witness :
  Tracker.editCharacter "Bob" "Alice" 3 4 (mkDocument 2 1
    [mkCharacter "u1" "Alice" 17 12; mkCharacter "u2" "Bob" 9 14])
  = (Normal (),
     mkDocument 2 1
       [mkCharacter "u1" "Alice" 17 12; mkCharacter "u2" "Alice" 3 4]).
Proof.
  apply (proj2 (editCharacter_in_place (mkDocument 2 1
           [mkCharacter "u1" "Alice" 17 12; mkCharacter "u2" "Bob" 9 14])
           "Bob" "Alice" 3 4) 1%nat (mkCharacter "u2" "Bob" 9 14)).
  - reflexivity.
  - reflexivity.
  - intros j c' Hj Hc'. destruct j as [|j]; [|lia].
    injection Hc' as <-. discriminate.
Defined.

(** ** Resetting and the empty roster *)

(** C9: [reset(true)] leaves an empty roster with [round] and [turn] at 0;
    [reset(false)] keeps the roster as it was and sets [round] and [turn]
    to 0. *)
Theorem reset_zeroes (db : Document) :
  (∃ db', Tracker.reset true db = (Normal (), db')
          ∧ Tracker.characterCount db' = (Normal 0, db')
          ∧ round db' = 0 ∧ turn db' = 0)
  ∧ Tracker.reset false db
    = (Normal (), {| round := 0; turn := 0; characters := characters db |}).
Proof.
  split; [|reflexivity].
  exists {| round := 0; turn := 0; characters := [] |}. by repeat split.
Qed.

(** C10: on an empty roster, with the turn pointer not negative and
    [round] a safe integer (the range in which the code's [round + 1] is
    the exact sum), [nextTurn()] throws nothing: it sets [turn] to 0, adds
    1 to [round] and leaves the roster empty. *)
Theorem nextTurn_empty_roster (db : Document) :
  characters db = [] →
  0 ≤ turn db →
  safeInteger (round db) →
  Tracker.nextTurn db
  = (Normal (), {| round := round db + 1; turn := 0; characters := [] |}).
Proof.
  destruct db as [r t cs]. cbn [characters turn round].
  intros -> Hturn _.
  unfold Tracker.nextTurn, mbind, M_bind. unfold get at 1.
  rewrite characterCount_run. cbn [fst snd turn].
  change (characterCount _) with 0.
  destruct (t <? 0 - 1) eqn:E; [lia|].
  reflexivity.
Qed.

Lemma nextTurn_empty_roster_witness :
  Tracker.nextTurn (mkDocument 3 0 [])
  = (Normal (), mkDocument 4 0 []).
Proof.
  apply (nextTurn_empty_roster (mkDocument 3 0 [])); [reflexivity| |].
  - cbn. lia.
  - unfold safeInteger. cbn. lia.
Defined.

(** ** Removal and the turn pointer *)

Lemma baseFindIndex_first {A : Type} (p : A → bool) (l : list A) (from : Z) :
  existsb p l = true →
  ∃ (j : nat) (x : A),
    Lodash.baseFindIndex l p from = from + Z.of_nat j
    ∧ l !! j = Some x ∧ p x = true
    ∧ ∀ j' y, (j' < j)%nat → l !! j' = Some y → p y = false.
Proof.
  revert from. induction l as [|a l IH]; intros from Hex; [done|].
  cbn in Hex. cbn [Lodash.baseFindIndex]. destruct (p a) eqn:Ea.
  - exists 0%nat, a. repeat split; [lia|done|]. intros j' y Hj'. lia.
  - cbn in Hex. destruct (IH (from + 1) Hex) as (j & x & Hidx & Hx & Hp & Hmin).
    exists (S j), x. repeat split; [lia|done|done|].
    intros [|j'] y Hj' Hy; cbn in Hy.
    + by injection Hy as <-.
    + apply (Hmin j'); [lia|done].
Qed.

Lemma remove_keeps_rejected {A : Type} (p : A → bool) (l : list A) :
  (∀ x, x ∈ l → p x = false) → Lodash.remove p l = l.
Proof.
  induction l as [|a l IH]; intros Hall; [done|]. cbn.
  rewrite (Hall a) by apply list_elem_of_here.
  f_equal. apply IH. intros x Hx. apply Hall. by apply list_elem_of_further.
Qed.

Lemma elem_of_remove {A : Type} (p : A → bool) (l : list A) (x : A) :
  x ∈ Lodash.remove p l ↔ x ∈ l ∧ p x = false.
Proof.
  induction l as [|a l IH]; cbn.
  - rewrite elem_of_nil. tauto.
  - destruct (p a) eqn:Ea.
    + rewrite IH, elem_of_cons. split; [tauto|].
      intros [[-> | Hin] Hp]; [congruence|done].
    + rewrite !elem_of_cons, IH. split; [|tauto].
      intros [-> | [Hin Hp]]; tauto.
Qed.

(** With unique names, [_.remove({ name })] deletes one position. *)
Lemma remove_unique_name (n : string) (cs : list Character) (j : nat)
    (x : Character) :
  NoDup (name <$> cs) →
  cs !! j = Some x →
  name x = n →
  Lodash.remove (Lodash.matchesName n) cs = delete j cs.
Proof.
  revert j. induction cs as [|a cs IH]; intros j Hnd Hj Hx; [done|].
  cbn in Hnd. apply NoDup_cons in Hnd as [Hnotin Hnd].
  cbn [Lodash.remove]. unfold Lodash.matchesName at 1.
  destruct j as [|j]; cbn in Hj.
  - injection Hj as ->. apply String.eqb_eq in Hx. rewrite Hx. cbn.
    apply remove_keeps_rejected. intros y Hy. unfold Lodash.matchesName.
    apply String.eqb_neq. intros Heq. apply Hnotin.
    apply String.eqb_eq in Hx. rewrite Hx, <- Heq.
    apply list_elem_of_fmap. by exists y.
  - assert (name a ≠ n) as Ha.
    { intros Heq. apply Hnotin. rewrite Heq, <- Hx.
      apply list_elem_of_fmap. exists x. split; [done|].
      by apply list_elem_of_lookup_2 with j. }
    apply String.eqb_neq in Ha. rewrite Ha. cbn. f_equal. by apply IH.
Qed.

(** C2: for an existing name, with [i] the index [findIndex] gives, [t] the
    turn and [count] the size before the call, [removeCharacter(name)]
    succeeds and removes the character at [i] (with it every character of
    that name, which is that one position when names are unique); for
    [i < t] the turn becomes [t - 1]; for [i = t = count - 1] the round
    grows by 1 and the turn becomes 0; for [i = t < count - 1] and for
    [i > t] the turn stays [t].  The two cases that compute [t - 1] or
    [round + 1] are stated for a safe integer [t], respectively [round],
    the range in which the code's sum is the exact one. *)
Theorem removeCharacter_turn_pointer (db : Document) (n : string)
    (c : Character) :
  c ∈ characters db →
  name c = n →
  let i := Lodash.findIndex (Lodash.matchesName n) (characters db) in
  let t := turn db in
  let count := characterCount db in
  ∃ db',
    Tracker.removeCharacter n db = (Normal (), db')
    ∧ (∃ ci, 0 ≤ i < count ∧ characters db !! Z.to_nat i = Some ci
             ∧ name ci = n ∧ ci ∉ characters db')
    ∧ characters db'
      = Lodash.remove (Lodash.matchesName n) (characters db)
    ∧ (NoDup (name <$> characters db) →
       characters db' = delete (Z.to_nat i) (characters db))
    ∧ (i < t → safeInteger t → turn db' = t - 1 ∧ round db' = round db)
    ∧ (i = t → i = count - 1 → safeInteger (round db) →
       round db' = round db + 1 ∧ turn db' = 0)
    ∧ (i = t → i < count - 1 → turn db' = t ∧ round db' = round db)
    ∧ (t < i → turn db' = t ∧ round db' = round db).
Proof.
  intros Hin Hc i t count.
  assert (hasName n db = true) as Hhas by (apply hasName_true; eauto).
  destruct (baseFindIndex_first (Lodash.matchesName n) (characters db) 0 Hhas)
    as (j & ci & Hidx & Hj & Hp & _).
  fold (Lodash.findIndex (Lodash.matchesName n) (characters db)) in Hidx.
  fold i in Hidx.
  assert (Z.to_nat i = j) as Hij by lia.
  assert (name ci = n) as Hci by (by apply String.eqb_eq).
  eexists. split; [by apply removeCharacter_run|].
  cbn [characters turn round]. fold i t count.
  split; [|split; [done|split]].
  - exists ci. apply lookup_lt_Some in Hj as Hlt.
    unfold count, characterCount. rewrite Hij.
    repeat split; [lia|lia|done|done|].
    rewrite elem_of_remove. intros [_ Hrej]. congruence.
  - intros Hnd. rewrite Hij. by apply remove_unique_name with ci.
  - repeat split; intros; repeat case_match; lia.
Qed.

(** The roster [A, B, C, D] at [turn = 2]: removing A leaves [B, C, D] and
    moves the turn to 1. *)
Lemma removeCharacter_turn_pointer_witness :
  ∃ db',
    Tracker.removeCharacter "A" (mkDocument 1 2
      [mkCharacter "u1" "A" 20 10; mkCharacter "u2" "B" 15 10;
       mkCharacter "u3" "C" 12 10; mkCharacter "u4" "D" 8 10])
    = (Normal (), db')
    ∧ turn db' = 1.
Proof.
  destruct (removeCharacter_turn_pointer
              (mkDocument 1 2
                 [mkCharacter "u1" "A" 20 10; mkCharacter "u2" "B" 15 10;
                  mkCharacter "u3" "C" 12 10; mkCharacter "u4" "D" 8 10])
              "A" (mkCharacter "u1" "A" 20 10))
    as (db' & Hrun & _ & _ & _ & Hbefore & _).
  - apply list_elem_of_here.
  - reflexivity.
  - exists db'. split; [exact Hrun|].
    apply Hbefore; [cbn; lia|]. unfold safeInteger. cbn. lia.
Defined.

(** ** What [sortTracker] does to the roster *)

Lemma sortTracker_run (db : Document) :
  Tracker.sortTracker db
  = (Normal (),
     {| round := round db; turn := turn db;
        characters :=
          Lodash.orderBy (characters db) (characters db)
            (Some ["initiative"; "dexterity"]) (Some ["desc"; "desc"]) |}).
Proof. reflexivity. Qed.

Lemma insertSorted_perm {A : Type} (cmp : A → A → Z) (x : A) (l : list A) :
  Lodash.insertSorted cmp x l ≡ₚ x :: l.
Proof.
  induction l as [|y l IH]; cbn; [done|].
  destruct (cmp x y <=? 0); [done|].
  rewrite IH. apply Permutation_swap.
Qed.

Lemma arraySort_perm {A : Type} (cmp : A → A → Z) (l : list A) :
  Lodash.arraySort cmp l ≡ₚ l.
Proof.
  induction l as [|x l IH]; cbn; [done|].
  by rewrite insertSorted_perm, IH.
Qed.

Lemma entriesFrom_values (its : list (Character → Lodash.criterion))
    (cs : list Character) (k : Z) :
  map Lodash.value (Lodash.entriesFrom its cs k) = cs.
Proof.
  revert k. induction cs as [|c cs IH]; intros k; cbn; [done|].
  by rewrite IH.
Qed.

(** Whatever the iteratees and orders, [orderBy] only rearranges. *)
Lemma orderBy_perm (cs its : list Character) (orders guard : option (list string)) :
  Lodash.orderBy cs its orders guard ≡ₚ cs.
Proof.
  unfold Lodash.orderBy, Lodash.baseOrderBy, Lodash.baseSortBy.
  match goal with
  | |- map _ (Lodash.arraySort ?cmp (Lodash.entriesFrom ?i _ _)) ≡ₚ _ =>
      rewrite <- (entriesFrom_values i cs 0) at 2;
      apply Permutation_map, arraySort_perm
  end.
Qed.

Lemma matches_eq (a b : Character) : Lodash.matches a b = true ↔ a = b.
Proof.
  unfold Lodash.matches. rewrite !andb_true_iff, !String.eqb_eq, !Z.eqb_eq.
  destruct a, b; cbn. split.
  - intros [[[-> ->] ->] ->]. done.
  - intros [= -> -> -> ->]. done.
Qed.

Lemma matches_ne (a b : Character) : a ≠ b → Lodash.matches a b = false.
Proof.
  intros Hne. destruct (Lodash.matches a b) eqn:E; [|done].
  by apply matches_eq in E.
Qed.

(** The criteria of the element that comes first among distinct sources
    are the larger ones: it has [true] where the other has [false]. *)
Lemma compareCriteria_earlier (l1 l2 : list Character) (x y : Character) :
  NoDup (l1 ++ x :: l2) →
  y ∈ l2 →
  Lodash.compareCriteria
    (map (λ it, it x) (map Lodash.baseIteratee (l1 ++ x :: l2)))
    (map (λ it, it y) (map Lodash.baseIteratee (l1 ++ x :: l2))) []
  = Some 1.
Proof.
  induction l1 as [|a l1 IH]; intros Hnd Hy; cbn in *.
  - apply NoDup_cons in Hnd as [Hx _].
    rewrite (proj2 (matches_eq x x) eq_refl).
    rewrite matches_ne; [done|]. intros ->. done.
  - apply NoDup_cons in Hnd as [Ha Hnd].
    rewrite !matches_ne; [by apply IH| |].
    + intros ->. apply Ha, elem_of_app. right. by apply list_elem_of_further.
    + intros ->. apply Ha, elem_of_app. right. apply list_elem_of_here.
Qed.

Lemma elem_of_entriesFrom (its : list (Character → Lodash.criterion))
    (cs : list Character) (k : Z) (e : Lodash.entry) :
  e ∈ Lodash.entriesFrom its cs k →
  ∃ y, y ∈ cs ∧ Lodash.criteria e = map (λ it, it y) its.
Proof.
  revert k. induction cs as [|c cs IH]; intros k He; cbn in He.
  - by apply elem_of_nil in He.
  - apply elem_of_cons in He as [-> | He].
    + exists c. split; [apply list_elem_of_here|done].
    + destruct (IH _ He) as (y & Hy & Hcrit).
      exists y. split; [by apply list_elem_of_further|done].
Qed.

Lemma insertSorted_largest {A : Type} (cmp : A → A → Z) (x : A) (l : list A) :
  (∀ y, y ∈ l → 0 < cmp x y) →
  Lodash.insertSorted cmp x l = (l ++ [x])%list.
Proof.
  induction l as [|a l IH]; intros Hall; cbn; [done|].
  destruct (cmp x a <=? 0) eqn:E.
  - specialize (Hall a (list_elem_of_here _ _)). lia.
  - f_equal. apply IH. intros y Hy. by apply Hall, list_elem_of_further.
Qed.

(** Sorting an array in which every element compares above all later ones
    turns it round. *)
Lemma arraySort_descending_input {A : Type} (cmp : A → A → Z) (l : list A) :
  StronglySorted (λ x y, 0 < cmp x y) l →
  Lodash.arraySort cmp l = reverse l.
Proof.
  induction 1 as [|x l Hsorted IH Hx]; cbn [Lodash.arraySort]; [done|].
  rewrite IH, reverse_cons. apply insertSorted_largest.
  intros y Hy. rewrite elem_of_reverse in Hy.
  rewrite Forall_forall in Hx. by apply Hx.
Qed.

Lemma entriesFrom_descending (pre cs : list Character) (k : Z) :
  NoDup (pre ++ cs) →
  StronglySorted (λ e e', 0 < Lodash.compareMultiple e e' [])
    (Lodash.entriesFrom (map Lodash.baseIteratee (pre ++ cs)) cs k).
Proof.
  revert pre k. induction cs as [|x cs IH]; intros pre k Hnd;
    cbn [Lodash.entriesFrom]; constructor.
  - replace (pre ++ x :: cs)%list with ((pre ++ [x]) ++ cs)%list
      by (by rewrite <- app_assoc).
    apply IH. by rewrite <- app_assoc.
  - apply Forall_forall. intros e He.
    apply elem_of_entriesFrom in He as (y & Hy & Hcrit).
    unfold Lodash.compareMultiple. rewrite Hcrit. cbn [Lodash.criteria].
    by rewrite compareCriteria_earlier.
Qed.

(** Called with a fourth argument and the collection itself as iteratees,
    [orderBy] returns pairwise different elements in reverse. *)
Lemma orderBy_guarded_reverses (cs : list Character)
    (orders : option (list string)) (guard : list string) :
  NoDup cs →
  Lodash.orderBy cs cs orders (Some guard) = reverse cs.
Proof.
  intros Hnd. unfold Lodash.orderBy, Lodash.baseOrderBy, Lodash.baseSortBy.
  destruct cs as [|c cs]; [done|].
  pose proof (entriesFrom_descending [] (c :: cs) 0 Hnd) as Hdesc.
  cbn [app] in Hdesc. lazy beta iota zeta.
  rewrite (arraySort_descending_input _ _ Hdesc).
  change (map Lodash.value ?l) with (Lodash.value <$> l).
  rewrite fmap_reverse. f_equal.
  apply (entriesFrom_values _ (c :: cs) 0).
Qed.

(** On a roster with unique names [sortTracker] reverses the roster. *)
Lemma sortTracker_reverses (db : Document) :
  NoDup (name <$> characters db) →
  Tracker.sortTracker db
  = (Normal (),
     {| round := round db; turn := turn db;
        characters := reverse (characters db) |}).
Proof.
  intros Hnd. rewrite sortTracker_run.
  rewrite orderBy_guarded_reverses; [done|]. by apply NoDup_fmap_1 in Hnd.
Qed.

(** ... and a second [sortTracker] puts it back as it was. *)
Lemma sortTracker_twice_restores (db : Document) :
  NoDup (name <$> characters db) →
  (Tracker.sortTracker (Tracker.sortTracker db).2).2 = db.
Proof.
  intros Hnd. rewrite (sortTracker_reverses db Hnd). cbn [snd].
  rewrite sortTracker_reverses; cbn [snd characters round turn].
  - rewrite reverse_involutive. by destruct db.
  - by rewrite reverse_Permutation.
Qed.

Lemma nextTurn_run (db : Document) :
  Tracker.nextTurn db
  = (Normal (),
     if turn db <? characterCount db - 1
     then {| round := round db; turn := turn db + 1;
             characters := characters db |}
     else {| round := round db + 1; turn := 0;
             characters :=
               Lodash.orderBy (characters db) (characters db)
                 (Some ["initiative"; "dexterity"])
                 (Some ["desc"; "desc"]) |}).
Proof.
  unfold Tracker.nextTurn, mbind, M_bind. unfold get at 1.
  rewrite characterCount_run.
  by destruct (turn db <? characterCount db - 1).
Qed.

(** C1: on the roster [Alice (20, 15); Bob (10, 12)], already in descending
    order, [sortTracker()] leaves [turn] and [round] alone and stores
    [Bob; Alice], which is not ordered by initiative descending. *)
Theorem sortTracker_leaves_ascending :
  Tracker.sortTracker
    (mkDocument 1 0
       [mkCharacter "u1" "Alice" 20 15; mkCharacter "u2" "Bob" 10 12])
  = (Normal (),
     mkDocument 1 0
       [mkCharacter "u2" "Bob" 10 12; mkCharacter "u1" "Alice" 20 15])
  ∧ orderedDesc
      [mkCharacter "u1" "Alice" 20 15; mkCharacter "u2" "Bob" 10 12] = true
  ∧ orderedDesc
      [mkCharacter "u2" "Bob" 10 12; mkCharacter "u1" "Alice" 20 15] = false.
Proof. repeat split. Qed.

(** C3: with [turn] on the last of [Alice (20, 15); Bob (10, 12)],
    [nextTurn()] sets [turn] to 0 and adds 1 to [round], but the roster it
    stores is [Bob; Alice], not ordered by initiative descending. *)
Theorem nextTurn_wrap_leaves_ascending :
  Tracker.nextTurn
    (mkDocument 1 1
       [mkCharacter "u1" "Alice" 20 15; mkCharacter "u2" "Bob" 10 12])
  = (Normal (),
     mkDocument 2 0
       [mkCharacter "u2" "Bob" 10 12; mkCharacter "u1" "Alice" 20 15])
  ∧ orderedDesc
      [mkCharacter "u2" "Bob" 10 12; mkCharacter "u1" "Alice" 20 15] = false.
Proof. repeat split. Qed.

(** C8: on [Alice (10, 10); Bob (10, 10)] one [sortTracker()] stores
    [Bob; Alice], so two characters with equal initiative and dexterity
    change places, and a second [sortTracker()] stores [Alice; Bob] again,
    which is not what the first one stored. *)
Theorem sortTracker_twice_differs :
  let alice := mkCharacter "u1" "Alice" 10 10 in
  let bob := mkCharacter "u2" "Bob" 10 10 in
  let once := (Tracker.sortTracker (mkDocument 1 0 [alice; bob])).2 in
  let twice := (Tracker.sortTracker once).2 in
  sameKeys alice bob = true
  ∧ characters once = [bob; alice]
  ∧ characters twice = [alice; bob]
  ∧ characters twice ≠ characters once.
Proof. repeat split. discriminate. Qed.

(** ** The turn pointer over whole sessions *)

Lemma assignFirst_length (n n' : string) (i d : Z) (cs : list Character) :
  length (Tracker.assignFirst n n' i d cs) = length cs.
Proof.
  induction cs as [|c cs IH]; cbn; [done|].
  destruct (Lodash.matchesName n c); cbn; [done|]. by rewrite IH.
Qed.

Lemma assignFirst_names (n n' : string) (i d : Z) (cs : list Character)
    (x : string) :
  x ∈ name <$> Tracker.assignFirst n n' i d cs →
  x = n' ∨ x ∈ name <$> cs.
Proof.
  induction cs as [|c cs IH]; cbn; [by right|].
  destruct (Lodash.matchesName n c); cbn; rewrite !elem_of_cons.
  - intros [-> | Hin]; [by left | by right; right].
  - intros [-> | Hin]; [by right; left|].
    destruct (IH Hin); [by left | by right; right].
Qed.

Lemma assignFirst_NoDup (n n' : string) (i d : Z) (cs : list Character) :
  n' = n ∨ n' ∉ name <$> cs →
  NoDup (name <$> cs) →
  NoDup (name <$> Tracker.assignFirst n n' i d cs).
Proof.
  induction cs as [|c cs IH]; intros Hfree Hnd; cbn; [done|].
  cbn in Hnd, Hfree. apply NoDup_cons in Hnd as [Hc Hnd].
  unfold Lodash.matchesName at 1.
  destruct (String.eqb (name c) n) eqn:E; cbn; apply NoDup_cons.
  - apply String.eqb_eq in E. split; [|done].
    destruct Hfree as [-> | Hfree]; [by rewrite <- E|].
    intros Hin. apply Hfree. by apply list_elem_of_further.
  - apply String.eqb_neq in E. split.
    + intros Hin. apply assignFirst_names in Hin as [Heq | Hin]; [|done].
      destruct Hfree as [-> | Hfree]; [done|].
      apply Hfree. rewrite <- Heq. apply list_elem_of_here.
    + apply IH; [|done].
      destruct Hfree as [-> | Hfree]; [by left|].
      right. intros Hin. apply Hfree. by apply list_elem_of_further.
Qed.

Lemma remove_NoDup_names (p : Character → bool) (cs : list Character) :
  NoDup (name <$> cs) → NoDup (name <$> Lodash.remove p cs).
Proof.
  induction cs as [|c cs IH]; cbn; [done|].
  intros [Hc Hnd]%NoDup_cons. destruct (p c); [by apply IH|].
  cbn. apply NoDup_cons. split; [|by apply IH].
  intros (y & Hy & Hin)%list_elem_of_fmap. apply Hc.
  apply elem_of_remove in Hin as [Hin _].
  apply list_elem_of_fmap. by exists y.
Qed.

Lemma hasName_names (n : string) (db : Document) :
  hasName n db = false ↔ n ∉ name <$> characters db.
Proof.
  rewrite hasName_false, list_elem_of_fmap. split.
  - intros Hall (c & -> & Hin). by apply (Hall c).
  - intros Hnot c Hin Hc. apply Hnot. by exists c.
Qed.

Lemma defaults_consistent : consistent defaults.
Proof. split; [apply NoDup_nil_2 | by vm_compute]. Qed.

(** Every call other than an escape hatch or a rename onto another
    character keeps the document consistent. *)
Lemma perform_consistent (c : call) (db : Document) :
  consistent db →
  escapeHatch c = false →
  renamesOnto c db = false →
  consistent (perform c db).2.
Proof.
  intros [Hnd Hturn] Hesc Hren.
  destruct c as [| |u n i d|n n' i d|n| | | |wipe];
    try discriminate Hesc; cbn [perform].
  - (* addCharacter *)
    rewrite addCharacter_run. destruct (hasName n db) eqn:E; [done|].
    split; cbn [snd characters turn].
    + rewrite fmap_app. apply NoDup_app. repeat split; [done| |].
      * intros x Hx ->%list_elem_of_singleton.
        by apply hasName_names in E.
      * apply NoDup_singleton.
    + unfold characterCount in *. cbn [characters].
      rewrite length_app. cbn [length]. lia.
  - (* editCharacter *)
    destruct (hasName n db) eqn:E.
    + rewrite editCharacter_run by done. split; cbn [snd characters turn].
      * apply assignFirst_NoDup; [|done].
        cbn in Hren. rewrite E in Hren. cbn in Hren.
        destruct (String.eqb n n') eqn:En.
        -- left. symmetry. by apply String.eqb_eq.
        -- right. by apply hasName_names.
      * unfold characterCount in *. cbn [characters].
        by rewrite assignFirst_length.
    + by rewrite editCharacter_absent.
  - (* removeCharacter *)
    destruct (hasName n db) eqn:E; [|by rewrite removeCharacter_absent].
    rewrite removeCharacter_run by done. cbv zeta.
    destruct (baseFindIndex_first (Lodash.matchesName n) (characters db) 0 E)
      as (j & ci & Hidx & Hj & Hp & _).
    fold (Lodash.findIndex (Lodash.matchesName n) (characters db)) in Hidx.
    rewrite Hidx.
    apply String.eqb_eq in Hp.
    split; cbn [snd characters turn].
    + by apply remove_NoDup_names.
    + unfold characterCount in *. cbn [characters].
      rewrite (remove_unique_name n _ j ci) by done.
      rewrite length_delete by eauto.
      apply lookup_lt_Some in Hj.
      repeat case_match; lia.
  - (* nextTurn *)
    rewrite nextTurn_run.
    pose proof (orderBy_perm (characters db) (characters db)
                  (Some ["initiative"; "dexterity"])
                  (Some ["desc"; "desc"])) as Hperm.
    destruct (turn db <? characterCount db - 1) eqn:E;
      split; cbn [snd characters turn]; unfold characterCount in *;
      cbn [characters]; rewrite ?(Permutation_length Hperm), ?Hperm;
      try done; lia.
  - (* startCombat *)
    change (Tracker.startCombat db)
      with (Normal (),
            {| round := 1; turn := 0; characters := characters db |}).
    split; cbn [snd characters turn]; [done|]. unfold characterCount in *.
    cbn [characters]. lia.
  - (* sortTracker *)
    rewrite sortTracker_run.
    pose proof (orderBy_perm (characters db) (characters db)
                  (Some ["initiative"; "dexterity"])
                  (Some ["desc"; "desc"])) as Hperm.
    split; cbn [snd characters turn]; unfold characterCount in *;
      cbn [characters]; rewrite ?(Permutation_length Hperm), ?Hperm; done.
  - (* reset *)
    destruct wipe.
    + change (Tracker.reset true db) with (Normal (), defaults).
      apply defaults_consistent.
    + change (Tracker.reset false db)
        with (Normal (),
              {| round := 0; turn := 0; characters := characters db |}).
      split; cbn [snd characters turn]; [done|]. unfold characterCount in *.
      cbn [characters]. lia.
Qed.

Lemma run_consistent (calls : list call) (db : Document) :
  consistent db →
  plainSession calls db = true →
  consistent (run calls db).
Proof.
  revert db. induction calls as [|c calls IH]; intros db Hcons Hplain; [done|].
  cbn in Hplain. apply andb_true_iff in Hplain as [Hc Hrest].
  apply andb_true_iff in Hc as [Hesc Hren].
  apply negb_true_iff in Hesc, Hren.
  cbn [run]. apply IH; [|done]. by apply perform_consistent.
Qed.

(** C4 as stated fails: three characters are added, the turn advances to
    the third, the third is renamed to the first one's name, and removing
    that name takes both away while the turn goes from 2 to 1, past the
    end of the one-character roster. *)
Lemma turn_leaves_roster_after_rename :
  ¬ (∀ calls : list call,
       forallb (λ c, negb (escapeHatch c)) calls = true →
       0 < characterCount (run calls defaults) →
       0 ≤ turn (run calls defaults) < characterCount (run calls defaults)).
Proof.
  intros Hall.
  specialize (Hall [AddCharacter "u1" "Alice" 20 15;
                    AddCharacter "u2" "Bob" 15 12;
                    AddCharacter "u3" "Cid" 10 9;
                    NextTurn; NextTurn;
                    EditCharacter "Cid" "Alice" 10 9;
                    RemoveCharacter "Alice"] eq_refl).
  change (run _ defaults)
    with (mkDocument 0 1 [mkCharacter "u2" "Bob" 15 12]) in Hall.
  unfold characterCount in Hall. cbn [characters turn length] in Hall.
  lia.
Qed.

(** C4, amended: from the default document, through any sequence of
    [addCharacter], [editCharacter], [removeCharacter], [nextTurn],
    [startCombat], [sortTracker] and [reset] calls in which no
    [editCharacter] gives a character the name of another character of the
    roster, [0 <= turn < characterCount] holds whenever the roster is not
    empty. *)
Theorem turn_inside_roster (calls : list call) :
  plainSession calls defaults = true →
  0 < characterCount (run calls defaults) →
  0 ≤ turn (run calls defaults) < characterCount (run calls defaults).
Proof.
  intros Hplain Hcount.
  destruct (run_consistent calls defaults defaults_consistent Hplain)
    as [_ Hturn].
  lia.
Qed.

Lemma turn_inside_roster_witness :
  0 ≤ turn (run [AddCharacter "u1" "Alice" 20 15;
                 AddCharacter "u2" "Bob" 15 12;
                 AddCharacter "u3" "Cid" 10 9;
                 NextTurn; NextTurn;
                 EditCharacter "Cid" "Cyd" 10 9;
                 RemoveCharacter "Alice";
                 NextTurn] defaults)
  < characterCount (run [AddCharacter "u1" "Alice" 20 15;
                         AddCharacter "u2" "Bob" 15 12;
                         AddCharacter "u3" "Cid" 10 9;
                         NextTurn; NextTurn;
                         EditCharacter "Cid" "Cyd" 10 9;
                         RemoveCharacter "Alice";
                         NextTurn] defaults).
Proof.
  apply turn_inside_roster.
  - reflexivity.
  - vm_compute. reflexivity.
Defined.

(** * Further properties of the class *)

(** ** Looking characters up *)

Lemma firstNamed_exists (n : string) (cs : list Character) :
  existsb (Lodash.matchesName n) cs = true → ∃ k c, firstNamed n cs k c.
Proof.
  intros Hex.
  destruct (baseFindIndex_first (Lodash.matchesName n) cs 0 Hex)
    as (k & c & _ & Hk & Hp & Hmin).
  exists k, c. split; [done|]. split; [by apply String.eqb_eq|].
  intros j cj Hj Hcj. apply String.eqb_neq. by apply (Hmin j).
Qed.

Lemma firstNamed_find (n : string) (cs : list Character) (k : nat)
    (c : Character) (from : Z) :
  firstNamed n cs k c →
  Lodash.find (Lodash.matchesName n) cs = Some c
  ∧ Lodash.baseFindIndex cs (Lodash.matchesName n) from = from + Z.of_nat k.
Proof.
  revert k from. induction cs as [|a cs IH]; intros k from (Hk & Hc & Hmin);
    [done|].
  cbn [Lodash.find Lodash.baseFindIndex]. unfold Lodash.matchesName at 1 3.
  destruct k as [|k]; cbn in Hk.
  - injection Hk as ->. apply String.eqb_eq in Hc. rewrite Hc.
    split; [done|lia].
  - assert (name a ≠ n) as Ha by (apply (Hmin 0%nat); [lia|done]).
    apply String.eqb_neq in Ha. rewrite Ha.
    destruct (IH k (from + 1)) as [Hfind Hidx].
    + split; [done|]. split; [done|]. intros j cj Hj Hcj.
      apply (Hmin (S j)); [lia|done].
    + split; [done|]. rewrite Hidx. lia.
Qed.

Lemma firstNamed_hasName (n : string) (db : Document) (k : nat)
    (c : Character) :
  firstNamed n (characters db) k c → hasName n db = true.
Proof.
  intros (Hk & Hc & _). apply hasName_true. exists c.
  split; [by apply list_elem_of_lookup_2 with k | done].
Qed.

Lemma getCharacterIndex_absent (n : string) (db : Document) :
  hasName n db = false →
  Tracker.getCharacterIndex n db = (Throw CharacterDoesNotExist, db).
Proof.
  intros H. unfold Tracker.getCharacterIndex, mbind, M_bind.
  by rewrite characterExists_run, H.
Qed.

Lemma getCharacterIndex_found (n : string) (db : Document) (k : nat)
    (c : Character) :
  firstNamed n (characters db) k c →
  Tracker.getCharacterIndex n db = (Normal (Z.of_nat k), db).
Proof.
  intros Hfirst. rewrite getCharacterIndex_run
    by (by apply firstNamed_hasName with k c).
  unfold Lodash.findIndex.
  by rewrite (proj2 (firstNamed_find n _ k c 0 Hfirst)).
Qed.

Lemma getCharacterOwnerID_found (n : string) (db : Document) (k : nat)
    (c : Character) :
  firstNamed n (characters db) k c →
  Tracker.getCharacterOwnerID n db = (Normal (userID c), db).
Proof.
  intros Hfirst. unfold Tracker.getCharacterOwnerID, mbind, M_bind.
  rewrite characterExists_run, (firstNamed_hasName n db k c Hfirst).
  cbn [negb]. unfold get at 1.
  by rewrite (proj1 (firstNamed_find n _ k c 0 Hfirst)).
Qed.

(** X1: [getCharacterIndex(name)] throws "Character does not exist!"
    without touching the document when no character bears the name;
    otherwise it returns the position of the first character of that name,
    an index inside the roster, and leaves the document as it is. *)
Theorem getCharacterIndex_first_match (db : Document) (n : string) :
  ((∀ c, c ∈ characters db → name c ≠ n) →
   Tracker.getCharacterIndex n db = (Throw CharacterDoesNotExist, db))
  ∧ (∀ c, c ∈ characters db → name c = n →
     ∃ (k : nat) (ck : Character),
       Tracker.getCharacterIndex n db = (Normal (Z.of_nat k), db)
       ∧ 0 ≤ Z.of_nat k < characterCount db
       ∧ firstNamed n (characters db) k ck).
Proof.
  split.
  - intros Habsent. apply getCharacterIndex_absent. by apply hasName_false.
  - intros c Hin Hc.
    assert (hasName n db = true) as Hhas by (apply hasName_true; eauto).
    destruct (firstNamed_exists n _ Hhas) as (k & ck & Hfirst).
    exists k, ck. split; [by apply getCharacterIndex_found with ck|].
    split; [|done]. destruct Hfirst as (Hk & _).
    apply lookup_lt_Some in Hk. unfold characterCount. lia.
Qed.

Lemma getCharacterIndex_first_match_witness :
  ∃ (k : nat) (ck : Character),
    Tracker.getCharacterIndex "Bob" (mkDocument 2 1
      [mkCharacter "u1" "Alice" 17 12; mkCharacter "u2" "Bob" 9 14;
       mkCharacter "u3" "Bob" 5 5])
    = (Normal (Z.of_nat k), mkDocument 2 1
         [mkCharacter "u1" "Alice" 17 12; mkCharacter "u2" "Bob" 9 14;
          mkCharacter "u3" "Bob" 5 5])
    ∧ k = 1%nat ∧ userID ck = "u2".
Proof.
  destruct (proj2 (getCharacterIndex_first_match (mkDocument 2 1
              [mkCharacter "u1" "Alice" 17 12; mkCharacter "u2" "Bob" 9 14;
               mkCharacter "u3" "Bob" 5 5]) "Bob")
              (mkCharacter "u3" "Bob" 5 5))
    as (k & ck & Hrun & Hrange & Hk & Hname & Hmin).
  - apply list_elem_of_further, list_elem_of_further, list_elem_of_here.
  - reflexivity.
  - exists k, ck. split; [exact Hrun|].
    destruct k as [|[|k]]; cbn in Hk.
    + injection Hk as <-. discriminate Hname.
    + injection Hk as <-. split; reflexivity.
    + exfalso. apply (Hmin 1%nat (mkCharacter "u2" "Bob" 9 14)).
      * lia.
      * reflexivity.
      * reflexivity.
Defined.

(** X2: [getCharacterOwnerID(name)] throws "Character does not exist!"
    without touching the document when no character bears the name;
    otherwise it returns the owner of the first character of that name,
    the one whose position [getCharacterIndex(name)] returns. *)
Theorem getCharacterOwnerID_first_match (db : Document) (n : string) :
  ((∀ c, c ∈ characters db → name c ≠ n) →
   Tracker.getCharacterOwnerID n db = (Throw CharacterDoesNotExist, db))
  ∧ (∀ (k : nat) (ck : Character),
       firstNamed n (characters db) k ck →
       Tracker.getCharacterOwnerID n db = (Normal (userID ck), db)
       ∧ Tracker.getCharacterIndex n db = (Normal (Z.of_nat k), db)).
Proof.
  split.
  - intros Habsent. apply hasName_false in Habsent.
    unfold Tracker.getCharacterOwnerID, mbind, M_bind.
    by rewrite characterExists_run, Habsent.
  - intros k ck Hfirst. split.
    + by apply getCharacterOwnerID_found with k.
    + by apply getCharacterIndex_found with ck.
Qed.

Lemma getCharacterOwnerID_first_match_witness :
  Tracker.getCharacterOwnerID "Bob" (mkDocument 2 1
    [mkCharacter "u1" "Alice" 17 12; mkCharacter "u2" "Bob" 9 14;
     mkCharacter "u3" "Bob" 5 5])
  = (Normal "u2", mkDocument 2 1
       [mkCharacter "u1" "Alice" 17 12; mkCharacter "u2" "Bob" 9 14;
        mkCharacter "u3" "Bob" 5 5]).
Proof.
  apply (proj2 (getCharacterOwnerID_first_match (mkDocument 2 1
           [mkCharacter "u1" "Alice" 17 12; mkCharacter "u2" "Bob" 9 14;
            mkCharacter "u3" "Bob" 5 5]) "Bob")
           1%nat (mkCharacter "u2" "Bob" 9 14)).
  split; [reflexivity|]. split; [reflexivity|].
  intros j cj Hj Hcj. destruct j as [|j]; [|lia].
  injection Hcj as <-. discriminate.
Defined.

Lemma userHasCharacter_run (u : string) (db : Document) :
  Tracker.userHasCharacter u db
  = (Normal (existsb (Lodash.matchesUserID u) (characters db)), db).
Proof.
  unfold Tracker.userHasCharacter. run_step. by rewrite find_existsb.
Qed.

Lemma existsb_matchesUserID (u : string) (cs : list Character) :
  existsb (Lodash.matchesUserID u) cs = true ↔ u ∈ userID <$> cs.
Proof.
  rewrite existsb_exists, list_elem_of_fmap. split.
  - intros (c & Hin & Hc). exists c. apply String.eqb_eq in Hc.
    split; [done|by apply list_elem_of_In].
  - intros (c & -> & Hin). exists c.
    split; [by apply list_elem_of_In | by apply String.eqb_eq].
Qed.

Lemma firstNamed_appended (n : string) (cs : list Character) (c : Character) :
  (∀ x, x ∈ cs → name x ≠ n) →
  name c = n →
  firstNamed n (cs ++ [c])%list (length cs) c.
Proof.
  intros Habsent Hc. split; [|split; [done|]].
  - by rewrite list_lookup_middle.
  - intros j cj Hj Hcj. rewrite lookup_app_l in Hcj by done.
    apply Habsent. by apply list_elem_of_lookup_2 with j.
Qed.

(** ** Adding, then looking up or removing *)

(** X3: after [addCharacter(userID, name, ...)] with a name not yet in the
    roster, [getCharacterIndex(name)] is the former [characterCount] (the
    new character is last), [getCharacterOwnerID(name)] is [userID],
    [userHasCharacter(userID)] is true and [characterCount] has grown by
    one. *)
Theorem addCharacter_then_lookup (db : Document) (u n : string) (i d : Z) :
  (∀ c, c ∈ characters db → name c ≠ n) →
  let db' := (Tracker.addCharacter u n i d db).2 in
  Tracker.getCharacterIndex n db' = (Normal (characterCount db), db')
  ∧ Tracker.getCharacterOwnerID n db' = (Normal u, db')
  ∧ Tracker.userHasCharacter u db' = (Normal true, db')
  ∧ Tracker.characterCount db' = (Normal (characterCount db + 1), db').
Proof.
  intros Habsent db'. subst db'. rewrite addCharacter_run.
  rewrite (proj2 (hasName_false n db) Habsent). cbn [snd].
  pose proof (firstNamed_appended n (characters db) (mkCharacter u n i d)
                Habsent eq_refl) as Hfirst.
  set (db1 := {| round := round db; turn := turn db;
                 characters := (characters db ++ [mkCharacter u n i d])%list |}).
  change (firstNamed n (characters db1) (length (characters db))
            (mkCharacter u n i d)) in Hfirst.
  repeat split.
  - by rewrite (getCharacterIndex_found n db1 _ _ Hfirst).
  - by rewrite (getCharacterOwnerID_found n db1 _ _ Hfirst).
  - rewrite userHasCharacter_run. do 2 f_equal. unfold db1.
    cbn [characters]. apply existsb_matchesUserID. rewrite fmap_app.
    apply elem_of_app. right. apply list_elem_of_here.
  - rewrite characterCount_run. do 2 f_equal. unfold characterCount, db1.
    cbn [characters]. rewrite length_app. cbn [length]. lia.
Qed.

Lemma addCharacter_then_lookup_witness :
  Tracker.getCharacterIndex "Cid"
    (Tracker.addCharacter "u3" "Cid" 11 8 (mkDocument 2 1
       [mkCharacter "u1" "Alice" 17 12; mkCharacter "u2" "Bob" 9 14])).2
  = (Normal 2,
     (Tracker.addCharacter "u3" "Cid" 11 8 (mkDocument 2 1
        [mkCharacter "u1" "Alice" 17 12; mkCharacter "u2" "Bob" 9 14])).2).
Proof.
  apply (addCharacter_then_lookup (mkDocument 2 1
           [mkCharacter "u1" "Alice" 17 12; mkCharacter "u2" "Bob" 9 14])
           "u3" "Cid" 11 8).
  intros c Hc. repeat (apply elem_of_cons in Hc as [-> | Hc]); [done|done|].
  by apply elem_of_nil in Hc.
Defined.

(** X4: a character added under a fresh name and removed again leaves the
    document exactly as it was when the turn pointer was inside the roster;
    when the pointer stood at [characterCount] (as on an empty tracker with
    [turn = 0]) the roster is restored but the pair counts as a finished
    round: [round], a safe integer, grows by 1 and [turn] is 0; when it
    stood beyond [characterCount], as a safe integer, it is lowered by 1. *)
Theorem addCharacter_then_removeCharacter (db : Document) (u n : string)
    (i d : Z) :
  (∀ c, c ∈ characters db → name c ≠ n) →
  let db' := (Tracker.addCharacter u n i d db).2 in
  (turn db < characterCount db →
   Tracker.removeCharacter n db' = (Normal (), db))
  ∧ (turn db = characterCount db →
     safeInteger (round db) →
     Tracker.removeCharacter n db'
     = (Normal (), {| round := round db + 1; turn := 0;
                      characters := characters db |}))
  ∧ (characterCount db < turn db →
     safeInteger (turn db) →
     Tracker.removeCharacter n db'
     = (Normal (), {| round := round db; turn := turn db - 1;
                      characters := characters db |})).
Proof.
  intros Habsent db'. subst db'. rewrite addCharacter_run.
  rewrite (proj2 (hasName_false n db) Habsent). cbn [snd].
  pose proof (firstNamed_appended n (characters db) (mkCharacter u n i d)
                Habsent eq_refl) as Hfirst.
  set (db1 := {| round := round db; turn := turn db;
                 characters := (characters db ++ [mkCharacter u n i d])%list |}).
  change (firstNamed n (characters db1) (length (characters db))
            (mkCharacter u n i d)) in Hfirst.
  assert (hasName n db1 = true) as Hhas
    by (by apply firstNamed_hasName with (length (characters db))
                                         (mkCharacter u n i d)).
  rewrite (removeCharacter_run n db1 Hhas). cbv zeta.
  unfold Lodash.findIndex.
  rewrite (proj2 (firstNamed_find n _ _ _ 0 Hfirst)).
  assert (Lodash.remove (Lodash.matchesName n) (characters db1)
          = characters db) as ->.
  { cbn [characters db1].
    assert (∀ l : list Character, (∀ x, x ∈ l → name x ≠ n) →
              Lodash.remove (Lodash.matchesName n)
                (l ++ [mkCharacter u n i d])%list = l) as Hrem.
    { induction l as [|a l IH]; intros Hl; cbn.
      - unfold Lodash.matchesName. cbn. by rewrite String.eqb_refl.
      - unfold Lodash.matchesName at 1.
        rewrite (proj2 (String.eqb_neq _ _) (Hl a (list_elem_of_here _ _))).
        f_equal. apply IH. intros x Hx. by apply Hl, list_elem_of_further. }
    by apply Hrem. }
  assert (characterCount db1 = characterCount db + 1) as ->.
  { unfold characterCount. cbn [characters db1]. rewrite length_app.
    cbn [length]. lia. }
  cbn [round turn db1]. fold (characterCount db).
  repeat split; intros Hturn; try intros _; destruct db as [r t cs];
    cbn [round turn characters] in *; repeat case_match; try lia;
    f_equal; f_equal; lia.
Qed.

(** On a fresh tracker, adding and removing a character ends round 0. *)
Lemma addCharacter_then_removeCharacter_witness :
  Tracker.removeCharacter "Alice"
    (Tracker.addCharacter "u1" "Alice" 17 12 defaults).2
  = (Normal (), mkDocument 1 0 []).
Proof.
  apply (addCharacter_then_removeCharacter defaults "u1" "Alice" 17 12).
  - intros c Hc. by apply elem_of_nil in Hc.
  - reflexivity.
  - unfold safeInteger. cbn. lia.
Defined.

(** ** Removing, and whose turn it is *)

Lemma remove_length_lt {A : Type} (p : A → bool) (l : list A) :
  existsb p l = true → (length (Lodash.remove p l) < length l)%nat.
Proof.
  assert (∀ l', length (Lodash.remove p l') ≤ length l')%nat as Hle.
  { induction l' as [|a l' IH]; cbn; [done|]. destruct (p a); cbn; lia. }
  induction l as [|a l IH]; cbn; [done|].
  destruct (p a) eqn:Ea; cbn.
  - intros _. specialize (Hle l). lia.
  - intros Hex. specialize (IH Hex). lia.
Qed.

(** X5: after a successful [removeCharacter(name)] no character bears the
    name any more ([characterExists(name)] is false), every character of
    another name is still there, nothing else has entered the roster, and
    [characterCount] is smaller than before. *)
Theorem removeCharacter_forgets_name (db : Document) (n : string)
    (c : Character) :
  c ∈ characters db →
  name c = n →
  let db' := (Tracker.removeCharacter n db).2 in
  Tracker.characterExists n db' = (Normal false, db')
  ∧ (∀ x, x ∈ characters db' ↔ x ∈ characters db ∧ name x ≠ n)
  ∧ (∀ m, m ≠ n →
       (Tracker.characterExists m db').1 = (Tracker.characterExists m db).1)
  ∧ characterCount db' < characterCount db.
Proof.
  intros Hin Hc db'.
  assert (hasName n db = true) as Hhas by (apply hasName_true; eauto).
  assert (characters db'
          = Lodash.remove (Lodash.matchesName n) (characters db)) as Hcs.
  { subst db'. by rewrite removeCharacter_run. }
  assert (∀ x, x ∈ characters db' ↔ x ∈ characters db ∧ name x ≠ n) as Hmem.
  { intros x. rewrite Hcs, elem_of_remove. unfold Lodash.matchesName.
    by rewrite String.eqb_neq. }
  split; [|split; [done|split]].
  - rewrite characterExists_run. do 2 f_equal. apply hasName_false.
    intros x Hx. by apply Hmem in Hx as [_ Hx].
  - intros m Hm. rewrite !characterExists_run. cbn [fst]. f_equal.
    apply eq_true_iff_eq. rewrite !hasName_true. split.
    + intros (x & Hx & Hxm). exists x. by apply Hmem in Hx as [Hx _].
    + intros (x & Hx & Hxm). exists x. split; [|done].
      apply Hmem. split; [done|congruence].
  - unfold characterCount. rewrite Hcs.
    pose proof (remove_length_lt (Lodash.matchesName n) (characters db) Hhas).
    lia.
Qed.

Lemma removeCharacter_forgets_name_witness :
  Tracker.characterExists "Alice"
    (Tracker.removeCharacter "Alice" (mkDocument 0 2
       [mkCharacter "u1" "Alice" 20 15; mkCharacter "u2" "Bob" 15 12;
        mkCharacter "u3" "Alice" 10 9])).2
  = (Normal false,
     (Tracker.removeCharacter "Alice" (mkDocument 0 2
        [mkCharacter "u1" "Alice" 20 15; mkCharacter "u2" "Bob" 15 12;
         mkCharacter "u3" "Alice" 10 9])).2).
Proof.
  apply (removeCharacter_forgets_name (mkDocument 0 2
           [mkCharacter "u1" "Alice" 20 15; mkCharacter "u2" "Bob" 15 12;
            mkCharacter "u3" "Alice" 10 9])
           "Alice" (mkCharacter "u1" "Alice" 20 15)).
  - apply list_elem_of_here.
  - reflexivity.
Defined.

Lemma currentCharacter_run (db : Document) :
  Tracker.currentCharacter db
  = (Normal (if turn db <? 0 then None
             else characters db !! Z.to_nat (turn db)), db).
Proof. reflexivity. Qed.

(** With unique names the removal is the deletion of one position. *)
Lemma removeCharacter_unique_run (db : Document) (n : string) (k : nat)
    (ck : Character) :
  NoDup (name <$> characters db) →
  firstNamed n (characters db) k ck →
  let wraps := (Z.of_nat k =? turn db)
               && (Z.of_nat k =? characterCount db - 1) in
  Tracker.removeCharacter n db
  = (Normal (),
     {| round := if wraps then round db + 1 else round db;
        turn := if Z.of_nat k <? turn db then turn db - 1
                else if wraps then 0 else turn db;
        characters := delete k (characters db) |}).
Proof.
  intros Hnd Hfirst wraps. subst wraps.
  rewrite removeCharacter_run by (by apply firstNamed_hasName with k ck).
  cbv zeta. unfold Lodash.findIndex.
  rewrite (proj2 (firstNamed_find n _ k ck 0 Hfirst)).
  destruct Hfirst as (Hk & Hname & _).
  rewrite (remove_unique_name n _ k ck Hnd Hk Hname).
  by replace (0 + Z.of_nat k) with (Z.of_nat k) by lia.
Qed.

(** X6: in a document with unique names and the turn pointer inside the
    roster, removing a character who is not the current one does not change
    whose turn it is ([currentCharacter] returns the same character before
    and after) and leaves [round] alone. *)
Theorem removeCharacter_keeps_current (db : Document) (n : string) (k : nat)
    (ck : Character) :
  consistent db →
  firstNamed n (characters db) k ck →
  Z.of_nat k ≠ turn db →
  let db' := (Tracker.removeCharacter n db).2 in
  (Tracker.currentCharacter db').1 = (Tracker.currentCharacter db).1
  ∧ round db' = round db.
Proof.
  intros [Hnd Hturn] Hfirst Hne db'. subst db'.
  rewrite (removeCharacter_unique_run db n k ck Hnd Hfirst). cbv zeta.
  rewrite !currentCharacter_run. cbn [fst snd round turn characters].
  destruct (Z.of_nat k =? turn db) eqn:Heq; [lia|]. cbn [andb].
  split; [|done]. f_equal.
  destruct (turn db <? 0) eqn:Hneg; [lia|].
  destruct (Z.of_nat k <? turn db) eqn:Hlt.
  - destruct (turn db - 1 <? 0) eqn:Hneg'; [lia|].
    rewrite list_lookup_delete_ge by lia. f_equal. lia.
  - rewrite Hneg. rewrite list_lookup_delete_lt by lia. done.
Qed.

(** Removing A from [A, B, C, D] on C's turn: it is still C's turn. *)
Lemma removeCharacter_keeps_current_witness :
  (Tracker.currentCharacter
     (Tracker.removeCharacter "A" (mkDocument 1 2
        [mkCharacter "u1" "A" 20 10; mkCharacter "u2" "B" 15 10;
         mkCharacter "u3" "C" 12 10; mkCharacter "u4" "D" 8 10])).2).1
  = Normal (Some (mkCharacter "u3" "C" 12 10)).
Proof.
  apply (removeCharacter_keeps_current (mkDocument 1 2
           [mkCharacter "u1" "A" 20 10; mkCharacter "u2" "B" 15 10;
            mkCharacter "u3" "C" 12 10; mkCharacter "u4" "D" 8 10])
           "A" 0%nat (mkCharacter "u1" "A" 20 10)).
  - split; [|by vm_compute]. cbn [characters]. compute_done.
  - split; [reflexivity|]. split; [reflexivity|]. intros j cj Hj. lia.
  - cbn. lia.
Defined.

(** X7: in a document with unique names and the turn pointer inside the
    roster, removing the current character hands the turn to the character
    that stood next and leaves [round] alone; when the current character
    was the last one, [round], a safe integer, grows by 1 and the turn goes
    to the head of what is left of the roster (to nobody when nothing is
    left). *)
Theorem removeCharacter_of_current (db : Document) (n : string) (k : nat)
    (ck : Character) :
  consistent db →
  firstNamed n (characters db) k ck →
  Z.of_nat k = turn db →
  let db' := (Tracker.removeCharacter n db).2 in
  (Z.of_nat k < characterCount db - 1 →
   round db' = round db
   ∧ (Tracker.currentCharacter db').1 = Normal (characters db !! S k))
  ∧ (Z.of_nat k = characterCount db - 1 →
     safeInteger (round db) →
     round db' = round db + 1
     ∧ characters db' = take k (characters db)
     ∧ (Tracker.currentCharacter db').1 = Normal (head (take k (characters db)))).
Proof.
  intros [Hnd Hturn] Hfirst Heq db'. subst db'.
  rewrite (removeCharacter_unique_run db n k ck Hnd Hfirst). cbv zeta.
  rewrite !currentCharacter_run. cbn [fst snd round turn characters].
  rewrite <- Heq. rewrite Z.eqb_refl, Z.ltb_irrefl. cbn [andb].
  unfold characterCount. split; [intros Hpos|intros Hpos _].
  - destruct (Z.of_nat k =? Z.of_nat (length (characters db)) - 1) eqn:E;
      [lia|].
    split; [done|]. f_equal.
    destruct (Z.of_nat k <? 0) eqn:Hneg; [lia|].
    rewrite Nat2Z.id. by rewrite list_lookup_delete_ge.
  - destruct (Z.of_nat k =? Z.of_nat (length (characters db)) - 1) eqn:E;
      [|lia].
    assert (delete k (characters db) = take k (characters db)) as ->.
    { rewrite delete_take_drop, drop_ge by lia. apply app_nil_r. }
    repeat split. cbn. by rewrite head_lookup.
Qed.

(** Removing C from [A, B, C, D] on C's turn: it is D's turn. *)
Lemma removeCharacter_of_current_witness :
  (Tracker.currentCharacter
     (Tracker.removeCharacter "C" (mkDocument 1 2
        [mkCharacter "u1" "A" 20 10; mkCharacter "u2" "B" 15 10;
         mkCharacter "u3" "C" 12 10; mkCharacter "u4" "D" 8 10])).2).1
  = Normal (Some (mkCharacter "u4" "D" 8 10)).
Proof.
  apply (removeCharacter_of_current (mkDocument 1 2
           [mkCharacter "u1" "A" 20 10; mkCharacter "u2" "B" 15 10;
            mkCharacter "u3" "C" 12 10; mkCharacter "u4" "D" 8 10])
           "C" 2%nat (mkCharacter "u3" "C" 12 10)).
  - split; [|by vm_compute]. cbn [characters]. compute_done.
  - split; [reflexivity|]. split; [reflexivity|].
    intros j cj Hj Hcj. destruct j as [|[|j]]; [| |lia];
      injection Hcj as <-; discriminate.
  - reflexivity.
  - by vm_compute.
Defined.

(** ** What the calls leave alone *)

Lemma assignFirst_owners (n n' : string) (i d : Z) (cs : list Character) :
  userID <$> Tracker.assignFirst n n' i d cs = userID <$> cs.
Proof.
  induction cs as [|c cs IH]; cbn; [done|].
  destruct (Lodash.matchesName n c); cbn; [done|]. by rewrite IH.
Qed.

Lemma perform_owners (c : call) (db : Document) :
  membershipCall c = false →
  userID <$> characters (perform c db).2 ≡ₚ userID <$> characters db.
Proof.
  intros Hc.
  pose proof (orderBy_perm (characters db) (characters db)
                (Some ["initiative"; "dexterity"])
                (Some ["desc"; "desc"])) as Hperm.
  destruct c as [| |u n i d|n n' i d|n| | | |wipe];
    try discriminate Hc; cbn [perform]; try done.
  - destruct (hasName n db) eqn:E.
    + rewrite editCharacter_run by done. cbn [snd characters].
      by rewrite assignFirst_owners.
    + by rewrite editCharacter_absent.
  - rewrite nextTurn_run. cbn [snd].
    destruct (turn db <? characterCount db - 1); cbn [characters];
      by rewrite ?Hperm.
  - rewrite sortTracker_run. cbn [snd characters]. by rewrite Hperm.
Qed.

(** X8: only [addCharacter], [removeCharacter] and [reset] change who is in
    the tracker: after any other call, failed or not, [characterCount] is
    what it was, the owners of the characters are the same ones (up to
    order), and so [userHasCharacter] answers as before for every user. *)
Theorem roster_membership_stable (c : call) (db : Document) :
  membershipCall c = false →
  let db' := (perform c db).2 in
  characterCount db' = characterCount db
  ∧ userID <$> characters db' ≡ₚ userID <$> characters db
  ∧ ∀ u, (Tracker.userHasCharacter u db').1
         = (Tracker.userHasCharacter u db).1.
Proof.
  intros Hc db'. pose proof (perform_owners c db Hc) as Hperm.
  fold db' in Hperm. split; [|split; [done|]].
  - unfold characterCount. apply Permutation_length in Hperm.
    rewrite !length_fmap in Hperm. lia.
  - intros u. rewrite !userHasCharacter_run. cbn [fst]. f_equal.
    apply eq_true_iff_eq. rewrite !existsb_matchesUserID. by rewrite Hperm.
Qed.

Lemma roster_membership_stable_witness :
  (Tracker.userHasCharacter "u2"
     (perform NextTurn (mkDocument 1 1
        [mkCharacter "u1" "Alice" 20 15; mkCharacter "u2" "Bob" 10 12])).2).1
  = Normal true.
Proof.
  apply (roster_membership_stable NextTurn (mkDocument 1 1
           [mkCharacter "u1" "Alice" 20 15; mkCharacter "u2" "Bob" 10 12])).
  reflexivity.
Defined.

(** X9: [round], when it is a safe integer, never goes down and grows by
    at most 1 in any call other than [reset], [startCombat] and the
    [roundIndex] setter. *)
Theorem round_grows_by_steps (c : call) (db : Document) :
  overwritesRound c = false →
  safeInteger (round db) →
  round db ≤ round (perform c db).2 ≤ round db + 1.
Proof.
  intros Hc _.
  destruct c as [| |u n i d|n n' i d|n| | | |wipe];
    try discriminate Hc; cbn [perform].
  - cbn. lia.
  - rewrite addCharacter_run. destruct (hasName n db); cbn; lia.
  - destruct (hasName n db) eqn:E.
    + rewrite editCharacter_run by done. cbn. lia.
    + rewrite editCharacter_absent by done. cbn. lia.
  - destruct (hasName n db) eqn:E.
    + rewrite removeCharacter_run by done. cbn [snd round].
      case_match; lia.
    + rewrite removeCharacter_absent by done. cbn. lia.
  - rewrite nextTurn_run. cbn [snd]. case_match; cbn [round]; lia.
  - rewrite sortTracker_run. cbn. lia.
Qed.

Lemma round_grows_by_steps_witness :
  3 ≤ round (perform (RemoveCharacter "Bob") (mkDocument 3 1
        [mkCharacter "u1" "Alice" 20 15; mkCharacter "u2" "Bob" 10 12])).2
  ≤ 3 + 1.
Proof.
  apply (round_grows_by_steps (RemoveCharacter "Bob") (mkDocument 3 1
           [mkCharacter "u1" "Alice" 20 15; mkCharacter "u2" "Bob" 10 12])).
  - reflexivity.
  - unfold safeInteger. cbn. lia.
Defined.

(** X10: no call other than the two setters makes [turn] or [round]
    negative: started at 0 or above, both stay at 0 or above, with or
    without unique names. *)
Theorem counters_stay_nonnegative (c : call) (db : Document) :
  escapeHatch c = false →
  0 ≤ turn db →
  0 ≤ round db →
  0 ≤ turn (perform c db).2 ∧ 0 ≤ round (perform c db).2.
Proof.
  intros Hc Hturn Hround.
  destruct c as [| |u n i d|n n' i d|n| | | |wipe];
    try discriminate Hc; cbn [perform].
  - rewrite addCharacter_run. by destruct (hasName n db).
  - destruct (hasName n db) eqn:E.
    + by rewrite editCharacter_run.
    + by rewrite editCharacter_absent.
  - destruct (hasName n db) eqn:E.
    + destruct (firstNamed_exists n _ E) as (k & ck & Hfirst).
      rewrite removeCharacter_run by done. cbv zeta.
      unfold Lodash.findIndex.
      rewrite (proj2 (firstNamed_find n _ k ck 0 Hfirst)).
      cbn [snd round turn].
      destruct (0 + Z.of_nat k <? turn db) eqn:Hlt;
        [apply Z.ltb_lt in Hlt|]; destruct (_ && _); lia.
    + by rewrite removeCharacter_absent.
  - rewrite nextTurn_run. cbn [snd].
    case_match; cbn [round turn]; lia.
  - unfold Tracker.startCombat. run_step. cbn. lia.
  - by rewrite sortTracker_run.
  - destruct wipe; unfold Tracker.reset; run_step; cbn; lia.
Qed.

Lemma counters_stay_nonnegative_witness :
  0 ≤ turn (perform (RemoveCharacter "Alice") (mkDocument 0 2
        [mkCharacter "u1" "Alice" 20 15; mkCharacter "u2" "Bob" 15 12;
         mkCharacter "u3" "Alice" 10 9])).2
  ∧ 0 ≤ round (perform (RemoveCharacter "Alice") (mkDocument 0 2
        [mkCharacter "u1" "Alice" 20 15; mkCharacter "u2" "Bob" 15 12;
         mkCharacter "u3" "Alice" 10 9])).2.
Proof.
  apply (counters_stay_nonnegative (RemoveCharacter "Alice")
           (mkDocument 0 2
              [mkCharacter "u1" "Alice" 20 15; mkCharacter "u2" "Bob" 15 12;
               mkCharacter "u3" "Alice" 10 9])).
  - reflexivity.
  - by vm_compute.
  - by vm_compute.
Defined.

(** ** Whole sessions *)

(** X11: from the default document, through any sequence of calls without
    the two setters in which no [editCharacter] renames a character onto
    another one, no two characters of the roster share a name. *)
Theorem names_stay_unique (calls : list call) :
  plainSession calls defaults = true →
  NoDup (name <$> characters (run calls defaults)).
Proof.
  intros Hplain.
  by destruct (run_consistent calls defaults defaults_consistent Hplain).
Qed.

Lemma names_stay_unique_witness :
  NoDup (name <$> characters
           (run [AddCharacter "u1" "Alice" 20 15;
                 AddCharacter "u2" "Alice" 15 12;
                 AddCharacter "u2" "Bob" 15 12;
                 EditCharacter "Bob" "Bobby" 1 1;
                 NextTurn; NextTurn] defaults)).
Proof. apply names_stay_unique. reflexivity. Defined.

(** X12: after such a session [currentCharacter] is undefined exactly when
    the roster is empty; otherwise it is the character of the roster at
    index [turn]. *)
Theorem currentCharacter_after_session (calls : list call) :
  plainSession calls defaults = true →
  let db := run calls defaults in
  (characters db = [] → Tracker.currentCharacter db = (Normal None, db))
  ∧ (characters db ≠ [] →
     ∃ c, Tracker.currentCharacter db = (Normal (Some c), db)
          ∧ characters db !! Z.to_nat (turn db) = Some c).
Proof.
  intros Hplain db.
  destruct (run_consistent calls defaults defaults_consistent Hplain)
    as [_ Hturn].
  fold db in Hturn. rewrite currentCharacter_run.
  destruct (turn db <? 0) eqn:Hneg; [lia|]. split.
  - intros ->. by rewrite lookup_nil.
  - intros Hne. unfold characterCount in Hturn.
    destruct (characters db) as [|c0 cs] eqn:Hcs; [done|].
    destruct (lookup_lt_is_Some_2 (c0 :: cs) (Z.to_nat (turn db)))
      as [c Hc]; [cbn [length] in *; lia|].
    exists c. by rewrite Hc.
Qed.

Lemma currentCharacter_after_session_witness :
  ∃ c, Tracker.currentCharacter
         (run [AddCharacter "u1" "Alice" 20 15;
               AddCharacter "u2" "Bob" 15 12;
               NextTurn;
               RemoveCharacter "Alice"] defaults)
       = (Normal (Some c),
          run [AddCharacter "u1" "Alice" 20 15;
               AddCharacter "u2" "Bob" 15 12;
               NextTurn;
               RemoveCharacter "Alice"] defaults)
       ∧ characters (run [AddCharacter "u1" "Alice" 20 15;
                          AddCharacter "u2" "Bob" 15 12;
                          NextTurn;
                          RemoveCharacter "Alice"] defaults)
         !! Z.to_nat (turn (run [AddCharacter "u1" "Alice" 20 15;
                                 AddCharacter "u2" "Bob" 15 12;
                                 NextTurn;
                                 RemoveCharacter "Alice"] defaults))
         = Some c.
Proof.
  apply (currentCharacter_after_session
           [AddCharacter "u1" "Alice" 20 15;
            AddCharacter "u2" "Bob" 15 12;
            NextTurn;
            RemoveCharacter "Alice"]).
  - reflexivity.
  - discriminate.
Defined.

(** ** Going round the roster *)

Lemma run_app (calls1 calls2 : list call) (db : Document) :
  run (calls1 ++ calls2) db = run calls2 (run calls1 db).
Proof.
  revert db. induction calls1 as [|c calls1 IH]; intros db; cbn; [done|].
  apply IH.
Qed.

Lemma run_nextTurn_advance (k : nat) (db : Document) :
  turn db + Z.of_nat k ≤ characterCount db - 1 →
  run (replicate k NextTurn) db
  = {| round := round db; turn := turn db + Z.of_nat k;
       characters := characters db |}.
Proof.
  revert db. induction k as [|k IH]; intros db Hk.
  - destruct db as [r t cs]. cbn. f_equal. lia.
  - cbn [replicate run perform]. rewrite nextTurn_run. cbn [snd].
    destruct (turn db <? characterCount db - 1) eqn:E; [|lia].
    rewrite IH.
    + cbn [round turn characters]. f_equal. lia.
    + unfold characterCount in *. cbn [turn characters]. lia.
Qed.



(** X14: in a roster with unique names, the turn pointer inside it and
    [round] a safe integer, [characterCount - turn] calls of [nextTurn()]
    finish the round: [round] has grown by exactly 1, [turn] is 0, and the
    roster is the former roster in reverse order. *)
Theorem nextTurn_completes_round (db : Document) :
  NoDup (name <$> characters db) →
  0 ≤ turn db < characterCount db →
  safeInteger (round db) →
  run (replicate (Z.to_nat (characterCount db - turn db)) NextTurn) db
  = {| round := round db + 1; turn := 0;
       characters := reverse (characters db) |}.
Proof.
  intros Hnd Hturn _.
  replace (Z.to_nat (characterCount db - turn db))
    with (S (Z.to_nat (characterCount db - turn db - 1))) by lia.
  rewrite replicate_S_end, run_app, run_nextTurn_advance by lia.
  cbn [run perform]. rewrite nextTurn_run. cbn [snd round turn characters].
  unfold characterCount at 2. cbn [characters]. fold (characterCount db).
  destruct (_ <? _) eqn:E; [apply Z.ltb_lt in E; lia|].
  f_equal. apply orderBy_guarded_reverses. by apply NoDup_fmap_1 in Hnd.
Qed.

Lemma nextTurn_completes_round_witness :
  run (replicate 2 NextTurn) (mkDocument 1 1
    [mkCharacter "u1" "A" 20 10; mkCharacter "u2" "B" 15 10;
     mkCharacter "u3" "C" 12 10])
  = mkDocument 2 0
      [mkCharacter "u3" "C" 12 10; mkCharacter "u2" "B" 15 10;
       mkCharacter "u1" "A" 20 10].
Proof.
  apply (nextTurn_completes_round (mkDocument 1 1
           [mkCharacter "u1" "A" 20 10; mkCharacter "u2" "B" 15 10;
            mkCharacter "u3" "C" 12 10])).
  - cbn [characters]. compute_done.
  - by vm_compute.
  - unfold safeInteger. cbn. lia.
Defined.

(** ** Sorting *)

(** X15: whatever the roster, [sortTracker()] and [nextTurn()] throw
    nothing and only rearrange it: the roster afterwards is a permutation
    of the roster before, and [sortTracker()] leaves [round] and [turn] as
    they were. *)
Theorem sorting_only_rearranges (db : Document) :
  (∃ db', Tracker.sortTracker db = (Normal (), db')
          ∧ characters db' ≡ₚ characters db
          ∧ round db' = round db ∧ turn db' = turn db)
  ∧ (∃ db', Tracker.nextTurn db = (Normal (), db')
            ∧ characters db' ≡ₚ characters db).
Proof.
  pose proof (orderBy_perm (characters db) (characters db)
                (Some ["initiative"; "dexterity"])
                (Some ["desc"; "desc"])) as Hperm.
  split; eexists.
  - rewrite sortTracker_run. by repeat split.
  - rewrite nextTurn_run. split; [done|].
    by destruct (turn db <? characterCount db - 1).
Qed.

(** X16: on a roster in which no two characters share a name,
    [sortTracker()] stores the roster in reverse order, whatever the
    initiatives and dexterities are, and a second [sortTracker()] brings
    back the document as it was. *)
Theorem sortTracker_reverses_unique_names (db : Document) :
  NoDup (name <$> characters db) →
  Tracker.sortTracker db
  = (Normal (),
     {| round := round db; turn := turn db;
        characters := reverse (characters db) |})
  ∧ (Tracker.sortTracker (Tracker.sortTracker db).2).2 = db.
Proof.
  intros Hnd. split.
  - by apply sortTracker_reverses.
  - by apply sortTracker_twice_restores.
Qed.

Lemma sortTracker_reverses_unique_names_witness :
  Tracker.sortTracker (mkDocument 1 0
    [mkCharacter "u1" "A" 12 10; mkCharacter "u2" "B" 20 10;
     mkCharacter "u3" "C" 15 10])
  = (Normal (), mkDocument 1 0
       [mkCharacter "u3" "C" 15 10; mkCharacter "u2" "B" 20 10;
        mkCharacter "u1" "A" 12 10]).
Proof.
  apply (sortTracker_reverses_unique_names (mkDocument 1 0
           [mkCharacter "u1" "A" 12 10; mkCharacter "u2" "B" 20 10;
            mkCharacter "u3" "C" 15 10])).
  cbn [characters]. compute_done.
Defined.

(** ** Renaming *)

Lemma firstNamed_renamed (n n' : string) (i d : Z) (cs : list Character)
    (k : nat) (ck : Character) :
  firstNamed n cs k ck →
  (∀ j cj, (j < k)%nat → cs !! j = Some cj → name cj ≠ n') →
  firstNamed n' (<[k := mkCharacter (userID ck) n' i d]> cs) k
    (mkCharacter (userID ck) n' i d).
Proof.
  intros (Hk & Hname & Hmin) Hfree. split; [|split; [done|]].
  - apply list_lookup_insert_eq. by apply lookup_lt_Some in Hk.
  - intros j cj Hj Hcj. rewrite list_lookup_insert_ne in Hcj by lia.
    by apply (Hfree j).
Qed.

Lemma editCharacter_found (n n' : string) (i d : Z) (db : Document)
    (k : nat) (ck : Character) :
  firstNamed n (characters db) k ck →
  Tracker.editCharacter n n' i d db
  = (Normal (),
     {| round := round db; turn := turn db;
        characters := <[k := mkCharacter (userID ck) n' i d]> (characters db) |}).
Proof.
  intros Hfirst.
  rewrite editCharacter_run by (by apply firstNamed_hasName with k ck).
  destruct Hfirst as (Hk & Hname & Hmin).
  by rewrite (assignFirst_insert n n' i d _ k ck).
Qed.

(** X17: after [editCharacter(name, newName, ...)] on the first character
    named [name], at position [k], with no character before position [k]
    bearing [newName], the character is found under the new name where it
    stood: [getCharacterIndex(newName)] is [k], [getCharacterOwnerID(newName)]
    is its unchanged owner, and [characterCount] is what it was. *)
Theorem editCharacter_then_lookup (db : Document) (n n' : string) (i d : Z)
    (k : nat) (ck : Character) :
  firstNamed n (characters db) k ck →
  (∀ j cj, (j < k)%nat → characters db !! j = Some cj → name cj ≠ n') →
  let db' := (Tracker.editCharacter n n' i d db).2 in
  Tracker.getCharacterIndex n' db' = (Normal (Z.of_nat k), db')
  ∧ Tracker.getCharacterOwnerID n' db' = (Normal (userID ck), db')
  ∧ characterCount db' = characterCount db.
Proof.
  intros Hfirst Hfree db'. subst db'.
  rewrite (editCharacter_found n n' i d db k ck Hfirst). cbn [snd].
  pose proof (firstNamed_renamed n n' i d _ k ck Hfirst Hfree) as Hnew.
  set (db1 := {| round := round db; turn := turn db;
                 characters :=
                   <[k := mkCharacter (userID ck) n' i d]> (characters db) |}).
  change (firstNamed n' (characters db1) k (mkCharacter (userID ck) n' i d))
    in Hnew.
  repeat split.
  - by rewrite (getCharacterIndex_found n' db1 _ _ Hnew).
  - by rewrite (getCharacterOwnerID_found n' db1 _ _ Hnew).
  - unfold characterCount, db1. cbn [characters]. by rewrite length_insert.
Qed.

Lemma editCharacter_then_lookup_witness :
  Tracker.getCharacterOwnerID "Bobby"
    (Tracker.editCharacter "Bob" "Bobby" 3 4 (mkDocument 2 1
       [mkCharacter "u1" "Alice" 17 12; mkCharacter "u2" "Bob" 9 14])).2
  = (Normal "u2",
     (Tracker.editCharacter "Bob" "Bobby" 3 4 (mkDocument 2 1
        [mkCharacter "u1" "Alice" 17 12; mkCharacter "u2" "Bob" 9 14])).2).
Proof.
  apply (editCharacter_then_lookup (mkDocument 2 1
           [mkCharacter "u1" "Alice" 17 12; mkCharacter "u2" "Bob" 9 14])
           "Bob" "Bobby" 3 4 1%nat (mkCharacter "u2" "Bob" 9 14)).
  - split; [reflexivity|]. split; [reflexivity|].
    intros j cj Hj Hcj. destruct j as [|j]; [|lia].
    injection Hcj as <-. discriminate.
  - intros j cj Hj Hcj. destruct j as [|j]; [|lia].
    injection Hcj as <-. discriminate.
Defined.

(** X18: a rename can be undone: after [editCharacter(name, newName, ...)]
    as in X17, [editCharacter(newName, name, initiative, dexterity)] with
    the character's former initiative and dexterity gives back the document
    as it was before the two calls. *)
Theorem editCharacter_rename_back (db : Document) (n n' : string) (i d : Z)
    (k : nat) (ck : Character) :
  firstNamed n (characters db) k ck →
  (∀ j cj, (j < k)%nat → characters db !! j = Some cj → name cj ≠ n') →
  Tracker.editCharacter n' n (initiative ck) (dexterity ck)
    (Tracker.editCharacter n n' i d db).2
  = (Normal (), db).
Proof.
  intros Hfirst Hfree.
  rewrite (editCharacter_found n n' i d db k ck Hfirst). cbn [snd].
  pose proof (firstNamed_renamed n n' i d _ k ck Hfirst Hfree) as Hnew.
  set (db1 := {| round := round db; turn := turn db;
                 characters :=
                   <[k := mkCharacter (userID ck) n' i d]> (characters db) |}).
  change (firstNamed n' (characters db1) k (mkCharacter (userID ck) n' i d))
    in Hnew.
  rewrite (editCharacter_found n' n _ _ db1 k _ Hnew).
  unfold db1. cbn [round turn characters userID].
  rewrite list_insert_insert_eq.
  destruct Hfirst as (Hk & Hname & _).
  rewrite list_insert_id; [by destruct db|].
  rewrite Hk. f_equal. destruct ck. cbn in *. by subst.
Qed.

Lemma editCharacter_rename_back_witness :
  Tracker.editCharacter "Bobby" "Bob" 9 14
    (Tracker.editCharacter "Bob" "Bobby" 3 4 (mkDocument 2 1
       [mkCharacter "u1" "Alice" 17 12; mkCharacter "u2" "Bob" 9 14])).2
  = (Normal (), mkDocument 2 1
       [mkCharacter "u1" "Alice" 17 12; mkCharacter "u2" "Bob" 9 14]).
Proof.
  apply (editCharacter_rename_back (mkDocument 2 1
           [mkCharacter "u1" "Alice" 17 12; mkCharacter "u2" "Bob" 9 14])
           "Bob" "Bobby" 3 4 1%nat (mkCharacter "u2" "Bob" 9 14)).
  - split; [reflexivity|]. split; [reflexivity|].
    intros j cj Hj Hcj. destruct j as [|j]; [|lia].
    injection Hcj as <-. discriminate.
  - intros j cj Hj Hcj. destruct j as [|j]; [|lia].
    injection Hcj as <-. discriminate.
Defined.

(** ** Pointing the turn at a character *)

(** X19: writing the index that [getCharacterIndex(name)] returns through
    the [turnIndex] setter makes the first character of that name the
    current one; when nobody bears the name the lookup throws and the turn
    pointer is not written. *)
Theorem turnIndex_of_found_character (db : Document) (n : string) :
  ((∀ c, c ∈ characters db → name c ≠ n) →
   (i ← Tracker.getCharacterIndex n;
    Tracker.turnIndex i;; Tracker.currentCharacter) db
   = (Throw CharacterDoesNotExist, db))
  ∧ (∀ (k : nat) (ck : Character),
       firstNamed n (characters db) k ck →
       (i ← Tracker.getCharacterIndex n;
        Tracker.turnIndex i;; Tracker.currentCharacter) db
       = (Normal (Some ck),
          {| round := round db; turn := Z.of_nat k;
             characters := characters db |})).
Proof.
  split.
  - intros Habsent. apply hasName_false in Habsent.
    unfold mbind at 1, M_bind at 1.
    by rewrite getCharacterIndex_absent.
  - intros k ck Hfirst. unfold mbind at 1, M_bind at 1.
    rewrite (getCharacterIndex_found n db k ck Hfirst).
    unfold mbind, M_bind, Tracker.turnIndex, update_turn.
    rewrite currentCharacter_run. cbn [round turn characters].
    destruct (Z.of_nat k <? 0) eqn:E; [apply Z.ltb_lt in E; lia|].
    rewrite Nat2Z.id. destruct Hfirst as (Hk & _). by rewrite Hk.
Qed.

Lemma turnIndex_of_found_character_witness :
  (i ← Tracker.getCharacterIndex "Bob";
   Tracker.turnIndex i;; Tracker.currentCharacter) (mkDocument 2 0
     [mkCharacter "u1" "Alice" 17 12; mkCharacter "u2" "Bob" 9 14])
  = (Normal (Some (mkCharacter "u2" "Bob" 9 14)),
     mkDocument 2 1
       [mkCharacter "u1" "Alice" 17 12; mkCharacter "u2" "Bob" 9 14]).
Proof.
  apply (proj2 (turnIndex_of_found_character (mkDocument 2 0
           [mkCharacter "u1" "Alice" 17 12; mkCharacter "u2" "Bob" 9 14])
           "Bob") 1%nat (mkCharacter "u2" "Bob" 9 14)).
  split; [reflexivity|]. split; [reflexivity|].
  intros j cj Hj Hcj. destruct j as [|j]; [|lia].
  injection Hcj as <-. discriminate.
Defined.

(** ** Keeping the document consistent *)

(** X21: starting from any document with unique names and the turn pointer
    inside the roster (at 0 when it is empty), not only from the default
    one, every call other than the two setters and a rename onto another
    character's name leaves a document with unique names and the turn
    pointer inside the roster. *)
Theorem plain_call_keeps_consistent (c : call) (db : Document) :
  consistent db →
  escapeHatch c = false →
  renamesOnto c db = false →
  consistent (perform c db).2.
Proof. apply perform_consistent. Qed.

Lemma plain_call_keeps_consistent_witness :
  consistent (perform (RemoveCharacter "C") (mkDocument 4 2
    [mkCharacter "u1" "A" 20 10; mkCharacter "u2" "B" 15 10;
     mkCharacter "u3" "C" 12 10])).2.
Proof.
  apply (plain_call_keeps_consistent (RemoveCharacter "C") (mkDocument 4 2
           [mkCharacter "u1" "A" 20 10; mkCharacter "u2" "B" 15 10;
            mkCharacter "u3" "C" 12 10])).
  - split; [|by vm_compute]. cbn [characters]. compute_done.
  - reflexivity.
  - reflexivity.
Defined.

(** ** The progress string *)

Lemma progress_run (db : Document) :
  Tracker.progress db
  = (Normal (pretty (round db + 1) +:+ "/" +:+ pretty (characterCount db)),
     db).
Proof. reflexivity. Qed.

Lemma no_slash_cons (a : ascii) (s : string) :
  a ≠ "/"%char →
  (∀ s1 s2, s ≠ s1 +:+ "/" +:+ s2) →
  ∀ s1 s2, String a s ≠ s1 +:+ "/" +:+ s2.
Proof.
  intros Ha Hs [|b s1] s2; cbn; intros [= Heq1 Heq2].
  - by apply Ha.
  - by apply (Hs s1 s2).
Qed.

Lemma pretty_N_go_no_slash (x : N) (s : string) :
  (∀ s1 s2, s ≠ s1 +:+ "/" +:+ s2) →
  ∀ s1 s2, pretty_N_go x s ≠ s1 +:+ "/" +:+ s2.
Proof.
  revert s. induction (N.lt_wf_0 x) as [x _ IH]; intros s Hs.
  assert (x = 0 ∨ 0 < x)%N as [->|Hpos] by lia.
  - by rewrite pretty_N_go_0.
  - rewrite pretty_N_go_step by done. apply IH.
    + by apply N.div_lt.
    + apply no_slash_cons; [|done].
      unfold pretty_N_char. by repeat case_match.
Qed.

Lemma pretty_Z_no_slash (z : Z) (s1 s2 : string) :
  pretty z ≠ s1 +:+ "/" +:+ s2.
Proof.
  assert (∀ s1 s2 : string, "" ≠ s1 +:+ "/" +:+ s2) as Hnil
    by (by intros [|??] ?).
  assert (∀ p : positive, ∀ s1 s2, pretty p ≠ s1 +:+ "/" +:+ s2) as Hpos.
  { intros p. unfold pretty, pretty_positive, pretty, pretty_N.
    case_decide; [done|]. by apply pretty_N_go_no_slash. }
  destruct z as [|p|p]; unfold pretty, pretty_Z.
  - by destruct s1 as [|? [|??]].
  - apply Hpos.
  - revert s1 s2. apply no_slash_cons; [done|]. apply Hpos.
Qed.

Lemma split_at_slash (a a' b b' : string) :
  (∀ s1 s2, a ≠ s1 +:+ "/" +:+ s2) →
  (∀ s1 s2, a' ≠ s1 +:+ "/" +:+ s2) →
  a +:+ "/" +:+ b = a' +:+ "/" +:+ b' →
  a = a' ∧ b = b'.
Proof.
  revert a'. induction a as [|c a IH]; intros [|c' a'] Ha Ha' Heq;
    simplify_eq/=.
  - done.
  - by destruct (Ha' "" a').
  - by destruct (Ha "" a).
  - destruct (IH a') as [-> ->]; [| |done|done].
    + intros s1 s2 ->. by apply (Ha (String c' s1) s2).
    + intros s1 s2 ->. by apply (Ha' (String c' s1) s2).
Qed.

(** X22: [progress] reads the document without changing it, and for
    rounds that are safe integers its string tells [round] and
    [characterCount] apart from any other pair: two such documents have the
    same progress string only if they agree on both. *)
Theorem progress_identifies_round_and_count (db1 db2 : Document) :
  (Tracker.progress db1).2 = db1
  ∧ (safeInteger (round db1) →
     safeInteger (round db2) →
     (Tracker.progress db1).1 = (Tracker.progress db2).1 →
     round db1 = round db2 ∧ characterCount db1 = characterCount db2).
Proof.
  rewrite !progress_run. cbn [fst snd]. split; [done|].
  intros _ _ [= Heq].
  apply split_at_slash in Heq as [Hr Hc]; try apply pretty_Z_no_slash.
  apply (inj pretty) in Hr. apply (inj pretty) in Hc. split; [lia|done].
Qed.

Lemma progress_identifies_round_and_count_witness :
  round (mkDocument 0 3 [mkCharacter "u1" "A" 20 10])
  = round (mkDocument 0 0 [mkCharacter "u2" "B" 15 10])
  ∧ characterCount (mkDocument 0 3 [mkCharacter "u1" "A" 20 10])
    = characterCount (mkDocument 0 0 [mkCharacter "u2" "B" 15 10]).
Proof.
  apply (progress_identifies_round_and_count
           (mkDocument 0 3 [mkCharacter "u1" "A" 20 10])
           (mkDocument 0 0 [mkCharacter "u2" "B" 15 10])).
  - unfold safeInteger. cbn. lia.
  - unfold safeInteger. cbn. lia.
  - reflexivity.
Defined.
